(** * Byte-stream transcoders of td/utils/misc.cpp

    Hexadecimal, percent ("URL") and run-length codecs, embedded as Rocq
    functions that follow the C++ source loop by loop, together with the
    properties the design document states about them.

    Conventions of the embedding:
    - a byte ([char] / [unsigned char]) is a [Byte.byte]; its unsigned value is
      [Byte.to_nat], and a conversion back to a byte ([static_cast<char>])
      reduces modulo 256 ([byte_of_nat]);
    - a [Slice] or [string] passed by value is the list of its bytes, and a
      [size_t] index or length is an exact natural number: every index the
      loops compute is at most the size of an existing buffer plus a small
      constant, and the one product, [3 * data.size()] in [url_encode], is
      shown to give the value of the exact computation whenever the encoded
      string has a [size_t] length ([url_encode_length_size_t_exact]) and to
      take the same branch ([url_encode_length_size_t_branch]);
    - every indexed access is checked: an access outside its buffer, a failed
      [CHECK], an error [Status] and an exhausted loop bound are the four ways
      a computation of the [outcome] monad can end without a value;
    - [url_decode] writes through a [MutableSlice] that may alias the [Slice]
      it reads: both are views into one flat byte store. *)

From Stdlib Require Import Strings.Byte Strings.String ZArith Lia.
From stdpp Require Import base list.

Local Open Scope nat_scope.

(* ===================================================================== *)
(** ** Bytes *)

Definition u8 (c : byte) : nat := Byte.to_nat c.

(** [static_cast<char>(n)] / [static_cast<unsigned char>(n)]: the value modulo 256. *)
Definition byte_of_nat (n : nat) : byte :=
  match Byte.of_nat (n mod 256) with
  | Some b => b
  | None => x00
  end.

Definition char_eq (a b : byte) : bool := Byte.eqb a b.

Definition bytes_of (s : string) : list byte := list_byte_of_string s.

(** Modelled from the spec: [is_digit], [is_alpha] and [is_alnum] of
    td/utils/misc.h, which is not part of the sources; the unreserved set of
    the percent codec names the ranges [0-9], [A-Z] and [a-z]. *)
Definition is_digit (c : byte) : bool := (48 <=? u8 c) && (u8 c <=? 57).
Definition is_alpha (c : byte) : bool :=
  ((65 <=? u8 c) && (u8 c <=? 90)) || ((97 <=? u8 c) && (u8 c <=? 122)).
Definition is_alnum (c : byte) : bool := is_alpha c || is_digit c.

(** Modelled from the spec: [hex_to_int] of td/utils/misc.h, which is not part
    of the sources; a valid hex digit is one of [0-9a-fA-F], read as its
    nibble value 0-15, and every other character gives 16 (the value both
    callers in misc.cpp test for). *)
Definition hex_to_int (c : byte) : nat :=
  if is_digit c then u8 c - 48
  else if (97 <=? u8 c) && (u8 c <=? 102) then u8 c - 97 + 10
  else if (65 <=? u8 c) && (u8 c <=? 70) then u8 c - 65 + 10
  else 16.

(** The character class [0-9a-fA-F], written out independently of [hex_to_int]. *)
Definition is_hex_char (c : byte) : bool :=
  ((48 <=? u8 c) && (u8 c <=? 57))
  || ((97 <=? u8 c) && (u8 c <=? 102))
  || ((65 <=? u8 c) && (u8 c <=? 70)).

(* ===================================================================== *)
(** ** Outcomes of a computation *)

Inductive error : Type :=
| StatusError (msg : string)   (* a Result holding Status::Error(msg) *)
| CheckFailed                  (* a CHECK whose condition is false *)
| OutOfBounds                  (* an access outside the buffer *)
| OutOfFuel.                   (* the bound given to a loop of the model ran out *)

Inductive outcome (A : Type) : Type :=
| Ok (a : A)
| Err (e : error).
Arguments Ok {A} a.
Arguments Err {A} e.

Definition bind {A B} (m : outcome A) (k : A -> outcome B) : outcome B :=
  match m with
  | Ok a => k a
  | Err e => Err e
  end.

Notation "'do' x <- m ; k" := (bind m (fun x => k))
  (at level 10, x name, m at level 100, k at level 200).
Notation "'do' ' p <- m ; k" := (bind m (fun x => match x with p => k end))
  (at level 10, p pattern, m at level 100, k at level 200).

(** The two errors of [hex_decode], by the message the source gives them. *)
Definition InvalidLength : error := StatusError "Wrong hex string length".
Definition InvalidCharacter : error := StatusError "Wrong hex string".

(** [s[i]] on a buffer held by value. *)
Definition get (s : list byte) (i : nat) : outcome byte :=
  match s !! i with
  | Some c => Ok c
  | None => Err OutOfBounds
  end.

(** [s[i] = x] on a buffer held by value. *)
Definition put (s : list byte) (i : nat) (x : byte) : outcome (list byte) :=
  if i <? length s then Ok (<[i := x]> s) else Err OutOfBounds.

(* ===================================================================== *)
(** ** Hex codec *)

Definition hex_lower : list byte := bytes_of "0123456789abcdef".
Definition hex_upper : list byte := bytes_of "0123456789ABCDEF".

(** The body of [for (size_t i = 0; i < result.size(); i++)] in [hex_decode]. *)
Fixpoint hex_decode_loop (fuel : nat) (hex : list byte) (i : nat) (result : list byte)
  : outcome (list byte) :=
  if negb (i <? length result) then Ok result else
  match fuel with
  | 0 => Err OutOfFuel
  | S fuel' =>
      do c1 <- get hex (i + i);
      do c2 <- get hex (i + i + 1);
      let high := hex_to_int c1 in
      let low := hex_to_int c2 in
      if (high =? 16) || (low =? 16) then Err InvalidCharacter
      else
        do result' <- put result i (byte_of_nat (high * 16 + low));
        hex_decode_loop fuel' hex (i + 1) result'
  end.

Definition hex_decode (hex : list byte) : outcome (list byte) :=
  if negb (length hex mod 2 =? 0) then Err InvalidLength
  else
    let result := replicate (length hex / 2) x00 in
    hex_decode_loop (length result) hex 0 result.

(** [for (unsigned char c : data)] in [hex_encode]: two [push_back]s per byte. *)
Fixpoint hex_encode_loop (data : list byte) (res : list byte) : outcome (list byte) :=
  match data with
  | [] => Ok res
  | c :: data' =>
      do h <- get hex_lower (Nat.shiftr (u8 c) 4);
      do l <- get hex_lower (Nat.land (u8 c) 15);
      hex_encode_loop data' ((res ++ [h]) ++ [l])
  end.

Definition hex_encode (data : list byte) : outcome (list byte) :=
  hex_encode_loop data [].

(** [buffer_to_hex]: the result is sized first and then written by index. *)
Fixpoint buffer_to_hex_loop (fuel : nat) (buffer : list byte) (i : nat) (res : list byte)
  : outcome (list byte) :=
  if negb (i <? length buffer) then Ok res else
  match fuel with
  | 0 => Err OutOfFuel
  | S fuel' =>
      do c <- get buffer i;
      do lo <- get hex_upper (Nat.land (u8 c) 15);
      do res1 <- put res (2 * i) lo;
      do hi <- get hex_upper (Nat.shiftr (u8 c) 4);
      do res2 <- put res1 (2 * i + 1) hi;
      buffer_to_hex_loop fuel' buffer (i + 1) res2
  end.

Definition buffer_to_hex (buffer : list byte) : outcome (list byte) :=
  buffer_to_hex_loop (length buffer) buffer 0 (replicate (2 * length buffer) x00).

(* ===================================================================== *)
(** ** Percent codec *)

Definition is_url_char (c : byte) : bool :=
  is_alnum c || char_eq c "-" || char_eq c "." || char_eq c "_" || char_eq c "~".

(** The first loop of [url_encode]: [length -= 2 * is_url_char(c)]. *)
Definition url_encode_length (data : list byte) : Z :=
  fold_left (fun len c => (len - 2 * (if is_url_char c then 1 else 0))%Z)
            data (3 * Z.of_nat (length data))%Z.

(** [size_t] arithmetic of a 64-bit target. *)
Definition size_t_wrap (z : Z) : Z := (z mod 2 ^ 64)%Z.

(** The same loop with every operation reduced as the machine reduces it. *)
Definition url_encode_length_size_t (data : list byte) : Z :=
  fold_left (fun len c => size_t_wrap (len - 2 * (if is_url_char c then 1 else 0)))
            data (size_t_wrap (3 * Z.of_nat (length data))).

(** The second loop of [url_encode]. *)
Fixpoint url_encode_loop (data : list byte) (result : list byte) : outcome (list byte) :=
  match data with
  | [] => Ok result
  | c :: data' =>
      if is_url_char c then url_encode_loop data' (result ++ [c])
      else
        let ch := u8 c in
        let result1 := result ++ ["%"%byte] in
        do h <- get hex_upper (ch / 16);
        let result2 := result1 ++ [h] in
        do l <- get hex_upper (ch mod 16);
        let result3 := result2 ++ [l] in
        url_encode_loop data' result3
  end.

Definition url_encode (data : list byte) : outcome (list byte) :=
  let len := url_encode_length data in
  if (len =? Z.of_nat (length data))%Z then Ok data
  else
    do result <- url_encode_loop data [];
    if (Z.of_nat (length result) =? len)%Z then Ok result else Err CheckFailed.

(** A [Slice] / [MutableSlice]: a view of [size] bytes at address [ptr] of the
    byte store. *)
Record Slice : Type := mkSlice { ptr : nat; size : nat }.

(** The byte store that the views look into. *)
Abbreviation store := (list byte).

Definition view (m : store) (s : Slice) : list byte := take (size s) (drop (ptr s) m).

Definition load (m : store) (s : Slice) (i : nat) : outcome byte :=
  if i <? size s then get m (ptr s + i) else Err OutOfBounds.

Definition write (m : store) (s : Slice) (i : nat) (x : byte) : outcome store :=
  if i <? size s then put m (ptr s + i) x else Err OutOfBounds.

(** Modelled from the spec: [MutableSlice::truncate] of td/utils/Slice.h, which
    is not part of the sources; the view is cut down to the given length. *)
Definition truncate (s : Slice) (n : nat) : Slice :=
  {| ptr := ptr s; size := Nat.min (size s) n |}.

(** The variables of the loop of [url_decode], with the store it works on. *)
Record cursor : Type := mkCursor { from_i : nat; to_i : nat; mem : store }.

(** [to[to_i++] = decode_plus_sign_as_space && from[from_i] == '+' ? ' ' : from[from_i];]
    followed by the [from_i++] of the loop header. *)
Definition url_decode_literal (from to : Slice) (decode_plus_sign_as_space : bool)
    (st : cursor) : outcome cursor :=
  do c <- load (mem st) from (from_i st);
  let x := if decode_plus_sign_as_space && char_eq c "+" then " "%byte else c in
  do m' <- write (mem st) to (to_i st) x;
  Ok {| from_i := from_i st + 1; to_i := to_i st + 1; mem := m' |}.

(** One iteration of the loop of [url_decode], the [from_i++] of its header included. *)
Definition url_decode_body (from to : Slice) (decode_plus_sign_as_space : bool)
    (n : nat) (st : cursor) : outcome cursor :=
  do c <- load (mem st) from (from_i st);
  if char_eq c "%" && (from_i st + 2 <? n) then
    do c1 <- load (mem st) from (from_i st + 1);
    do c2 <- load (mem st) from (from_i st + 2);
    let high := hex_to_int c1 in
    let low := hex_to_int c2 in
    if (high <? 16) && (low <? 16) then
      do m' <- write (mem st) to (to_i st) (byte_of_nat (high * 16 + low));
      Ok {| from_i := from_i st + 2 + 1; to_i := to_i st + 1; mem := m' |}
    else url_decode_literal from to decode_plus_sign_as_space st
  else url_decode_literal from to decode_plus_sign_as_space st.

Fixpoint url_decode_loop (fuel : nat) (from to : Slice) (decode_plus_sign_as_space : bool)
    (n : nat) (st : cursor) : outcome cursor :=
  if negb (from_i st <? n) then Ok st else
  match fuel with
  | 0 => Err OutOfFuel
  | S fuel' =>
      do st' <- url_decode_body from to decode_plus_sign_as_space n st;
      url_decode_loop fuel' from to decode_plus_sign_as_space n st'
  end.

(** [size_t url_decode(Slice from, MutableSlice to, bool)]: the number of bytes
    written, and the store after the writes. *)
Definition url_decode_to (from to : Slice) (decode_plus_sign_as_space : bool) (m : store)
  : outcome (nat * store) :=
  if negb (size from <=? size to) then Err CheckFailed
  else
    do st <- url_decode_loop (size from) from to decode_plus_sign_as_space (size from)
               {| from_i := 0; to_i := 0; mem := m |};
    Ok (to_i st, mem st).

(** [string url_decode(Slice from, bool)]: the result string [to] is a fresh
    buffer of [from.size()] bytes, placed in the store after the bytes of
    [from], and is resized to the count that the into-buffer variant returns. *)
Definition url_decode (from : list byte) (decode_plus_sign_as_space : bool)
  : outcome (list byte) :=
  let n := length from in
  let src := {| ptr := 0; size := n |} in
  let dst := {| ptr := n; size := n |} in
  let m := from ++ replicate n x00 in
  do '(k, m') <- url_decode_to src dst decode_plus_sign_as_space m;
  Ok (resize k x00 (view m' dst)).

(** [url_decode_inplace]: source and destination are the same view [str]; the
    result is the truncated view together with the store it looks into. *)
Definition url_decode_inplace (str : Slice) (decode_plus_sign_as_space : bool) (m : store)
  : outcome (Slice * store) :=
  do '(result_size, m') <- url_decode_to str str decode_plus_sign_as_space m;
  Ok (truncate str result_size, m').

(** The states the loop of [url_decode] passes through, from the initial one. *)
Inductive url_decode_reaches (from to : Slice) (plus : bool) (m : store) : cursor -> Prop :=
| reaches_init :
    url_decode_reaches from to plus m {| from_i := 0; to_i := 0; mem := m |}
| reaches_step st st' :
    url_decode_reaches from to plus m st ->
    from_i st < size from ->
    url_decode_body from to plus (size from) st = Ok st' ->
    url_decode_reaches from to plus m st'.

(* ===================================================================== *)
(** ** Run codecs *)

(** [while (cnt < 250 && i + cnt < n && s[i + cnt] == s[i]) cnt++;] with
    [unsigned char cnt]. *)
Fixpoint x_encode_count (fuel : nat) (s : list byte) (n i cnt : nat) : outcome nat :=
  if negb (cnt <? 250) then Ok cnt else
  if negb (i + cnt <? n) then Ok cnt else
  do a <- get s (i + cnt);
  do b <- get s i;
  if negb (char_eq a b) then Ok cnt else
  match fuel with
  | 0 => Err OutOfFuel
  | S fuel' => x_encode_count fuel' s n i ((cnt + 1) mod 256)
  end.

(** The loop of [x_encode]; [i += cnt - 1] is followed by the [i++] of the
    header, and [cnt] is never below 1, so the subtraction is exact. *)
Fixpoint x_encode_loop (fuel : nat) (f : byte -> bool) (s : list byte) (n i : nat)
    (res : list byte) : outcome (list byte) :=
  if negb (i <? n) then Ok res else
  match fuel with
  | 0 => Err OutOfFuel
  | S fuel' =>
      do c <- get s i;
      let res1 := res ++ [c] in
      if f c then
        do cnt <- x_encode_count 250 s n i 1;
        let res2 := res1 ++ [byte_of_nat cnt] in
        x_encode_loop fuel' f s n (i + (cnt - 1) + 1) res2
      else x_encode_loop fuel' f s n (i + 1) res1
  end.

Definition x_encode (s : list byte) (f : byte -> bool) : outcome (list byte) :=
  x_encode_loop (length s) f s (length s) 0 [].

(** The loop of [x_decode]; [res.append(count, ch)] appends [count] copies of [ch]. *)
Fixpoint x_decode_loop (fuel : nat) (f : byte -> bool) (s : list byte) (n i : nat)
    (res : list byte) : outcome (list byte) :=
  if negb (i <? n) then Ok res else
  match fuel with
  | 0 => Err OutOfFuel
  | S fuel' =>
      do c <- get s i;
      if (i + 1 <? n) && f c then
        do k <- get s (i + 1);
        x_decode_loop fuel' f s n (i + 1 + 1) (res ++ replicate (u8 k) c)
      else x_decode_loop fuel' f s n (i + 1) (res ++ [c])
  end.

Definition x_decode (s : list byte) (f : byte -> bool) : outcome (list byte) :=
  x_decode_loop (length s) f s (length s) 0 [].

Definition is_zero (c : byte) : bool := u8 c =? 0.
Definition is_zero_or_one (c : byte) : bool := (u8 c =? 0) || (u8 c =? 255).

Definition zero_encode (data : list byte) : outcome (list byte) := x_encode data is_zero.
Definition zero_decode (data : list byte) : outcome (list byte) := x_decode data is_zero.
Definition zero_one_encode (data : list byte) : outcome (list byte) := x_encode data is_zero_or_one.
Definition zero_one_decode (data : list byte) : outcome (list byte) := x_decode data is_zero_or_one.

(* ===================================================================== *)
(** ** The formats, as functions and predicates on byte lists

    The definitions below do not come from the loops of the source: they say
    what each format is, and the theorems relate the loops to them. *)

(** The digit character of a nibble in one of the two digit tables. *)
Definition digit_of (table : list byte) (n : nat) : byte := default x00 (table !! n).

(** Two lowercase hex digits per byte, high nibble first. *)
Fixpoint hex_encode_list (data : list byte) : list byte :=
  match data with
  | [] => []
  | c :: data' =>
      digit_of hex_lower (u8 c / 16) :: digit_of hex_lower (u8 c mod 16)
        :: hex_encode_list data'
  end.

(** Two uppercase hex digits per byte, low nibble first. *)
Fixpoint buffer_to_hex_list (data : list byte) : list byte :=
  match data with
  | [] => []
  | c :: data' =>
      digit_of hex_upper (u8 c mod 16) :: digit_of hex_upper (u8 c / 16)
        :: buffer_to_hex_list data'
  end.

(** The byte a pair of hex digits stands for. *)
Definition hex_pair (c1 c2 : byte) : byte := byte_of_nat (hex_to_int c1 * 16 + hex_to_int c2).

(** Pairs of hex digits read as bytes; [None] when a character of a pair is no hex digit. *)
Fixpoint hex_pairs (hex : list byte) : option (list byte) :=
  match hex with
  | c1 :: c2 :: rest =>
      if (hex_to_int c1 =? 16) || (hex_to_int c2 =? 16) then None
      else match hex_pairs rest with
           | Some d => Some (hex_pair c1 c2 :: d)
           | None => None
           end
  | _ => Some []
  end.

(** ASCII uppercase of a character. *)
Definition to_upper (c : byte) : byte :=
  if (97 <=? u8 c) && (u8 c <=? 122) then byte_of_nat (u8 c - 32) else c.

(** Exchange the two characters of every pair. *)
Fixpoint swap_pairs (s : list byte) : list byte :=
  match s with
  | a :: b :: rest => b :: a :: swap_pairs rest
  | _ => s
  end.

(** The byte with the two nibbles of [c] exchanged. *)
Definition swap_nibbles (c : byte) : byte := byte_of_nat (u8 c mod 16 * 16 + u8 c / 16).

(** Unreserved bytes as they are, every other byte as [%XX] in uppercase hex. *)
Fixpoint url_encode_list (data : list byte) : list byte :=
  match data with
  | [] => []
  | c :: data' =>
      if is_url_char c then c :: url_encode_list data'
      else "%"%byte :: digit_of hex_upper (u8 c / 16) :: digit_of hex_upper (u8 c mod 16)
             :: url_encode_list data'
  end.

(** The number of unreserved bytes of a buffer. *)
Fixpoint count_unreserved (data : list byte) : nat :=
  match data with
  | [] => 0
  | c :: data' => (if is_url_char c then 1 else 0) + count_unreserved data'
  end.

(** What a byte that starts no escape decodes to. *)
Definition plus_or_self (decode_plus_sign_as_space : bool) (c : byte) : byte :=
  if decode_plus_sign_as_space && char_eq c "+" then " "%byte else c.

(** Percent-decoding from left to right: [%] followed by two hex digits is the
    byte they stand for, anything else is a literal. The list is what remains
    of the input, so [%] followed by fewer than two bytes is a literal. *)
Fixpoint url_decode_list (decode_plus_sign_as_space : bool) (s : list byte) : list byte :=
  match s with
  | [] => []
  | c :: t =>
      match t with
      | c1 :: c2 :: t' =>
          if char_eq c "%" && (hex_to_int c1 <? 16) && (hex_to_int c2 <? 16)
          then hex_pair c1 c2 :: url_decode_list decode_plus_sign_as_space t'
          else plus_or_self decode_plus_sign_as_space c :: url_decode_list decode_plus_sign_as_space t
      | _ => plus_or_self decode_plus_sign_as_space c :: url_decode_list decode_plus_sign_as_space t
      end
  end.

(** [%] starts an escape of the rest [t] of the input. *)
Definition escape_follows (t : list byte) : bool :=
  match t with
  | c1 :: c2 :: _ => (hex_to_int c1 <? 16) && (hex_to_int c2 <? 16)
  | _ => false
  end.

Section RunFormat.
Variable f : byte -> bool.

(** Run decoding from left to right: a sentinel with a byte after it is a
    run of as many copies as that byte says, anything else is a literal. *)
Fixpoint x_decode_list (s : list byte) : list byte :=
  match s with
  | [] => []
  | c :: t =>
      match t with
      | k :: t' => if f c then replicate (u8 k) c ++ x_decode_list t' else c :: x_decode_list t
      | [] => [c]
      end
  end.

(** The encoded form: literals that are no sentinel, and sentinels each
    followed by a count between 1 and 250. *)
Inductive encoded_form : list byte -> Prop :=
| encoded_nil : encoded_form []
| encoded_literal c rest :
    f c = false -> encoded_form rest -> encoded_form (c :: rest)
| encoded_run c k rest :
    f c = true -> 1 <= u8 k <= 250 -> encoded_form rest -> encoded_form (c :: k :: rest).

(** A decoder input that ends where a token ends: literals, and sentinels
    each followed by one more byte, whatever its value. *)
Inductive whole_tokens : list byte -> Prop :=
| tokens_nil : whole_tokens []
| tokens_literal c rest :
    f c = false -> whole_tokens rest -> whole_tokens (c :: rest)
| tokens_run c k rest :
    f c = true -> whole_tokens rest -> whole_tokens (c :: k :: rest).

(** The (sentinel, count) pairs of an encoded form, in order. *)
Fixpoint run_pairs (s : list byte) : list (byte * nat) :=
  match s with
  | [] => []
  | c :: t =>
      match t with
      | k :: t' => if f c then (c, u8 k) :: run_pairs t' else run_pairs t
      | [] => []
      end
  end.
End RunFormat.

(* ===================================================================== *)
(** ** Invariants and measures used in the proofs *)

(** What the loop of [url_decode] maintains: the indices stay in their
    views, the views stay in the store, the destination has room for what
    remains to be read, and a write never lands on a byte still to be read. *)
Definition decode_inv (from to : Slice) (st : cursor) : Prop :=
  from_i st <= size from
  /\ ptr from + size from <= length (mem st)
  /\ ptr to + size to <= length (mem st)
  /\ to_i st + (size from - from_i st) <= size to
  /\ (ptr to + to_i st <= ptr from + from_i st \/ ptr from + size from <= ptr to).

(** The bytes of the source that the loop has not read yet. *)
Definition unread (from : Slice) (st : cursor) : list byte :=
  take (size from - from_i st) (drop (ptr from + from_i st) (mem st)).

(** The bytes of the destination that the loop has written. *)
Definition written (to : Slice) (st : cursor) : list byte :=
  take (to_i st) (drop (ptr to) (mem st)).

(** The part of [decode_inv] that keeps every access in range, whatever the
    two views share. *)
Definition decode_bounds (from to : Slice) (st : cursor) : Prop :=
  from_i st <= size from
  /\ ptr from + size from <= length (mem st)
  /\ ptr to + size to <= length (mem st)
  /\ to_i st + (size from - from_i st) <= size to.

(** The number of bytes of a buffer that satisfy a test. *)
Fixpoint count_if (f : byte -> bool) (s : list byte) : nat :=
  match s with
  | [] => 0
  | c :: t => (if f c then 1 else 0) + count_if f t
  end.

(** The characters [0-9a-f] and [0-9A-F]. *)
Definition is_lower_hex_char (c : byte) : bool :=
  ((48 <=? u8 c) && (u8 c <=? 57)) || ((97 <=? u8 c) && (u8 c <=? 102)).
Definition is_upper_hex_char (c : byte) : bool :=
  ((48 <=? u8 c) && (u8 c <=? 57)) || ((65 <=? u8 c) && (u8 c <=? 70)).

(* ===================================================================== *)
(** ** String utilities *)

(** [implode]: [for (size_t i = 0; i < v.size(); i++)], the delimiter before
    every element but the first. *)
Fixpoint implode_loop (fuel : nat) (v : list (list byte)) (delimiter : byte) (i : nat)
    (result : list byte) : outcome (list byte) :=
  if negb (i <? length v) then Ok result else
  match fuel with
  | 0 => Err OutOfFuel
  | S fuel' =>
      let result1 := if negb (i =? 0) then result ++ [delimiter] else result in
      match v !! i with
      | Some x => implode_loop fuel' v delimiter (i + 1) (result1 ++ x)
      | None => Err OutOfBounds
      end
  end.

Definition implode (v : list (list byte)) (delimiter : byte) : outcome (list byte) :=
  implode_loop (length v) v delimiter 0 [].

(** [lpad]: [string(size - str.size(), c) + str], reached only when
    [str.size() < size], so the subtraction is exact. *)
Definition lpad (str : list byte) (size : nat) (c : byte) : list byte :=
  if size <=? length str then str
  else replicate (size - length str) c ++ str.

Definition lpad0 (str : list byte) (size : nat) : list byte := lpad str size "0"%byte.

Definition rpad (str : list byte) (size : nat) (c : byte) : list byte :=
  if size <=? length str then str
  else str ++ replicate (size - length str) c.

(** One step of the [for (auto c : str)] of [oneline] on the pair of
    [result] and [after_new_line]; [continue] leaves both as they are. *)
Definition oneline_step (st : list byte * bool) (c : byte) : list byte * bool :=
  let '(result, after_new_line) := st in
  if negb (char_eq c x0a) && negb (char_eq c x0d) then
    if after_new_line then
      if char_eq c " " then (result, after_new_line)
      else (result ++ [c], false)
    else (result ++ [c], after_new_line)
  else if negb after_new_line then (result ++ [" "%byte], true)
  else (result, after_new_line).

(** [while (!result.empty() && result.back() == ' ') result.pop_back();] *)
Fixpoint oneline_trim (fuel : nat) (result : list byte) : outcome (list byte) :=
  match last result with
  | None => Ok result
  | Some c =>
      if negb (char_eq c " ") then Ok result
      else match fuel with
           | 0 => Err OutOfFuel
           | S fuel' => oneline_trim fuel' (removelast result)
           end
  end.

Definition oneline (str : list byte) : outcome (list byte) :=
  let '(result, _) := fold_left oneline_step str ([], true) in
  oneline_trim (length result) result.

(* ===================================================================== *)
(** ** Further formats and predicates used in the statements *)

(** The elements of [v] joined, [d] between neighbours. *)
Fixpoint implode_list (v : list (list byte)) (d : byte) : list byte :=
  match v with
  | [] => []
  | x :: rest =>
      match rest with
      | [] => x
      | _ :: _ => x ++ d :: implode_list rest d
      end
  end.

(** The sum of the lengths of the elements. *)
Fixpoint total_length (v : list (list byte)) : nat :=
  match v with
  | [] => 0
  | x :: rest => length x + total_length rest
  end.

(** A line feed or a carriage return. *)
Definition is_line_break (c : byte) : bool := char_eq c x0a || char_eq c x0d.

(** ASCII lowercase of a character. *)
Definition to_lower (c : byte) : byte :=
  if (65 <=? u8 c) && (u8 c <=? 90) then byte_of_nat (u8 c + 32) else c.

(** The output format of [url_encode]: unreserved bytes, and [%] with two
    uppercase hex digits that stand for a byte which is not unreserved. *)
Inductive percent_encoded : list byte -> Prop :=
| percent_nil : percent_encoded []
| percent_plain c rest :
    is_url_char c = true -> percent_encoded rest -> percent_encoded (c :: rest)
| percent_escape h l rest :
    is_upper_hex_char h = true -> is_upper_hex_char l = true ->
    is_url_char (hex_pair h l) = false ->
    percent_encoded rest -> percent_encoded ("%"%byte :: h :: l :: rest).

(** Every element of [v] with [d] in front of it. *)
Fixpoint delimited (v : list (list byte)) (d : byte) : list byte :=
  match v with
  | [] => []
  | x :: rest => d :: x ++ delimited rest d
  end.

(** A space, a line feed or a carriage return. *)
Definition is_blank (c : byte) : bool := char_eq c " " || is_line_break c.

(** The bytes of a string that are not blank, in order. *)
Definition text_of (s : list byte) : list byte := List.filter (fun c => negb (is_blank c)) s.

(* ===================================================================== *)
(** * Properties *)

(** A fact about every byte, checked on each of the 256 values. *)
Ltac by_byte_cases c := destruct c; first [reflexivity | split; reflexivity].

(** ** Bytes and checked accesses *)

Lemma u8_lt (c : byte) : u8 c < 256.
Proof. pose proof (Byte.to_nat_bounded c). unfold u8. lia. Qed.

Lemma byte_of_nat_u8 (c : byte) : byte_of_nat (u8 c) = c.
Proof.
  unfold byte_of_nat, u8.
  rewrite Nat.mod_small by (pose proof (Byte.to_nat_bounded c); lia).
  now rewrite Byte.of_to_nat.
Qed.

Lemma u8_byte_of_nat (n : nat) : n < 256 -> u8 (byte_of_nat n) = n.
Proof.
  intros Hn. unfold byte_of_nat, u8. rewrite Nat.mod_small by exact Hn.
  destruct (Byte.of_nat n) as [b|] eqn:E.
  - now apply Byte.to_of_nat.
  - apply Byte.of_nat_None_iff in E. lia.
Qed.

Lemma char_eq_true (a b : byte) : char_eq a b = true <-> a = b.
Proof.
  unfold char_eq. split.
  - apply Byte.byte_dec_bl.
  - apply Byte.byte_dec_lb.
Qed.

Lemma char_eq_refl (a : byte) : char_eq a a = true.
Proof. now apply char_eq_true. Qed.

Lemma get_Some (s : list byte) (i : nat) (c : byte) : s !! i = Some c -> get s i = Ok c.
Proof. intros H. unfold get. now rewrite H. Qed.

Lemma get_drop (s : list byte) (i : nat) (c : byte) (t : list byte) :
  drop i s = c :: t -> get s i = Ok c /\ drop (S i) s = t /\ i < length s.
Proof.
  intros H.
  assert (Hl : s !! i = Some c).
  { rewrite <- (Nat.add_0_r i), <- lookup_drop, H. reflexivity. }
  split; [now apply get_Some|]. split.
  - rewrite (drop_S _ _ _ Hl) in H. congruence.
  - now apply lookup_lt_Some in Hl.
Qed.

Lemma drop_cons_lt (s : list byte) (i : nat) :
  i < length s -> exists c, drop i s = c :: drop (S i) s.
Proof.
  intros H. destruct (lookup_lt_is_Some_2 s i H) as [c Hc].
  exists c. now apply drop_S.
Qed.

Lemma put_middle (done rest : list byte) (old x : byte) :
  put (done ++ old :: rest) (length done) x = Ok ((done ++ [x]) ++ rest).
Proof.
  unfold put. rewrite length_app. simpl.
  destruct (Nat.ltb_spec (length done) (length done + S (length rest))); [|lia].
  f_equal. rewrite insert_app_r_alt by lia.
  rewrite Nat.sub_diag. simpl. now rewrite <- app_assoc.
Qed.

(** ** Hex digits *)

Lemma hex_lower_get (c : byte) :
  get hex_lower (Nat.shiftr (u8 c) 4) = Ok (digit_of hex_lower (u8 c / 16))
  /\ get hex_lower (Nat.land (u8 c) 15) = Ok (digit_of hex_lower (u8 c mod 16)).
Proof. by_byte_cases c. Qed.

Lemma hex_upper_get (c : byte) :
  get hex_upper (Nat.shiftr (u8 c) 4) = Ok (digit_of hex_upper (u8 c / 16))
  /\ get hex_upper (Nat.land (u8 c) 15) = Ok (digit_of hex_upper (u8 c mod 16)).
Proof. by_byte_cases c. Qed.

Lemma hex_upper_get_div (c : byte) :
  get hex_upper (u8 c / 16) = Ok (digit_of hex_upper (u8 c / 16))
  /\ get hex_upper (u8 c mod 16) = Ok (digit_of hex_upper (u8 c mod 16)).
Proof. by_byte_cases c. Qed.

Lemma hex_to_int_lower (c : byte) :
  hex_to_int (digit_of hex_lower (u8 c / 16)) = u8 c / 16
  /\ hex_to_int (digit_of hex_lower (u8 c mod 16)) = u8 c mod 16.
Proof. by_byte_cases c. Qed.

Lemma hex_to_int_upper (c : byte) :
  hex_to_int (digit_of hex_upper (u8 c / 16)) = u8 c / 16
  /\ hex_to_int (digit_of hex_upper (u8 c mod 16)) = u8 c mod 16.
Proof. by_byte_cases c. Qed.

Lemma hex_to_int_le (c : byte) : hex_to_int c <= 16.
Proof. destruct c; vm_compute; lia. Qed.

Lemma hex_to_int_16 (c : byte) : (hex_to_int c =? 16) = negb (is_hex_char c).
Proof. by_byte_cases c. Qed.

Lemma hex_to_int_lt_16 (c : byte) : (hex_to_int c <? 16) = is_hex_char c.
Proof. by_byte_cases c. Qed.

Lemma nibbles_byte (c : byte) : byte_of_nat (u8 c / 16 * 16 + u8 c mod 16) = c.
Proof.
  replace (u8 c / 16 * 16 + u8 c mod 16) with (u8 c).
  - apply byte_of_nat_u8.
  - pose proof (Nat.div_mod_eq (u8 c) 16). lia.
Qed.

(** ** Hex codec: the loops compute the formats *)

Lemma hex_encode_loop_spec (data res : list byte) :
  hex_encode_loop data res = Ok (res ++ hex_encode_list data).
Proof.
  revert res. induction data as [|c data IH]; intros res; cbn [hex_encode_loop].
  - now rewrite app_nil_r.
  - destruct (hex_lower_get c) as [-> ->]. cbn [bind].
    rewrite IH. f_equal. now rewrite <- !app_assoc.
Qed.

Lemma hex_encode_spec (data : list byte) : hex_encode data = Ok (hex_encode_list data).
Proof. unfold hex_encode. now rewrite hex_encode_loop_spec. Qed.

Lemma hex_encode_list_length (data : list byte) :
  length (hex_encode_list data) = 2 * length data.
Proof. induction data; simpl; lia. Qed.

Lemma hex_encode_list_lookup (data : list byte) (i : nat) (c : byte) :
  data !! i = Some c ->
  hex_encode_list data !! (2 * i) = Some (digit_of hex_lower (u8 c / 16))
  /\ hex_encode_list data !! (2 * i + 1) = Some (digit_of hex_lower (u8 c mod 16)).
Proof.
  revert i. induction data as [|d data IH]; intros i H; [discriminate|].
  destruct i as [|i].
  - injection H as ->. split; reflexivity.
  - simpl in H. apply IH in H.
    replace (2 * S i) with (S (S (2 * i))) by lia. exact H.
Qed.

Lemma hex_pairs_encode (data : list byte) : hex_pairs (hex_encode_list data) = Some data.
Proof.
  induction data as [|c data IH]; [reflexivity|].
  cbn [hex_encode_list hex_pairs]. unfold hex_pair.
  destruct (hex_to_int_lower c) as [-> ->].
  pose proof (Nat.mod_upper_bound (u8 c) 16).
  pose proof (u8_lt c).
  assert (u8 c / 16 < 16) by (apply Nat.Div0.div_lt_upper_bound; lia).
  destruct (Nat.eqb_spec (u8 c / 16) 16); [lia|].
  destruct (Nat.eqb_spec (u8 c mod 16) 16); [lia|].
  cbn [orb]. rewrite IH. now rewrite nibbles_byte.
Qed.

Lemma hex_decode_loop_spec (hex : list byte) (k : nat) :
  length hex = 2 * k ->
  forall fuel done,
    length done <= k -> k - length done <= fuel ->
    hex_decode_loop fuel hex (length done) (done ++ replicate (k - length done) x00)
    = match hex_pairs (drop (2 * length done) hex) with
      | Some d => Ok (done ++ d)
      | None => Err InvalidCharacter
      end.
Proof.
  intros Hlen fuel. induction fuel as [|fuel IH]; intros done Hi Hf.
  - assert (E : length done = k) by lia.
    cbn [hex_decode_loop].
    rewrite length_app, length_replicate, E, Nat.sub_diag, Nat.add_0_r, Nat.ltb_irrefl.
    cbn [negb replicate]. rewrite drop_ge by lia. reflexivity.
  - cbn [hex_decode_loop]. rewrite length_app, length_replicate.
    replace (length done + (k - length done)) with k by lia.
    set (i := length done) in *.
    destruct (Nat.ltb_spec i k) as [Hlt|Hge]; cbn [negb].
    + destruct (drop_cons_lt hex (2 * i)) as [c1 E1]; [lia|].
      destruct (drop_cons_lt hex (S (2 * i))) as [c2 E2]; [lia|].
      rewrite E1, E2.
      apply get_drop in E1 as (G1 & _ & _). apply get_drop in E2 as (G2 & _ & _).
      replace (i + i) with (2 * i) by lia. rewrite G1.
      replace (2 * i + 1) with (S (2 * i)) by lia. rewrite G2.
      cbn [bind hex_pairs].
      destruct ((hex_to_int c1 =? 16) || (hex_to_int c2 =? 16)); [reflexivity|].
      replace (k - i) with (S (k - (i + 1))) by lia. cbn [replicate].
      subst i. rewrite put_middle. cbn [bind].
      assert (L : length (done ++ [hex_pair c1 c2]) = length done + 1)
        by (rewrite length_app; simpl; lia).
      specialize (IH (done ++ [hex_pair c1 c2])). rewrite L in IH.
      unfold hex_pair in *. rewrite IH by lia.
      replace (2 * (length done + 1)) with (S (S (2 * length done))) by lia.
      destruct (hex_pairs (drop (S (S (2 * length done))) hex)); [|reflexivity].
      now rewrite <- app_assoc.
    + assert (i = k) by lia. subst k.
      rewrite Nat.sub_diag, drop_ge by lia. reflexivity.
Qed.

Lemma even_half (n : nat) : n mod 2 = 0 -> n = 2 * (n / 2).
Proof. intros H. pose proof (Nat.div_mod_eq n 2). lia. Qed.

Lemma hex_decode_spec (hex : list byte) :
  hex_decode hex
  = if negb (length hex mod 2 =? 0) then Err InvalidLength
    else match hex_pairs hex with
         | Some d => Ok d
         | None => Err InvalidCharacter
         end.
Proof.
  unfold hex_decode.
  destruct (Nat.eqb_spec (length hex mod 2) 0) as [He|Ho]; [|reflexivity].
  cbn [negb]. rewrite length_replicate.
  pose proof (hex_decode_loop_spec hex (length hex / 2) (even_half _ He)
                (length hex / 2) []) as H.
  cbn [length app] in H. rewrite Nat.sub_0_r in H.
  rewrite H by lia. reflexivity.
Qed.

Lemma pair_induction (P : list byte -> Prop) :
  P [] -> (forall a, P [a]) -> (forall a b l, P l -> P (a :: b :: l)) ->
  forall l, P l.
Proof.
  intros H0 H1 H2 l.
  enough (H : P l /\ forall a, P (a :: l)) by apply H.
  induction l as [|x l [IHa IHb]]; split; auto.
Qed.

Lemma mod2_SS (n : nat) : S (S n) mod 2 = n mod 2.
Proof. replace (S (S n)) with (n + 1 * 2) by lia. apply Nat.Div0.mod_add. Qed.

Lemma div2_SS (n : nat) : S (S n) / 2 = S (n / 2).
Proof. replace (S (S n)) with (n + 1 * 2) by lia. rewrite Nat.div_add by lia. lia. Qed.

Lemma hex_pairs_None (hex : list byte) :
  length hex mod 2 = 0 ->
  (hex_pairs hex = None <-> exists c, c ∈ hex /\ is_hex_char c = false).
Proof.
  induction hex as [|a|a b l IH] using pair_induction; intros He.
  - split; [discriminate|]. intros (c & Hc & _). inversion Hc.
  - discriminate.
  - cbn [length] in He. rewrite mod2_SS in He. specialize (IH He).
    cbn [hex_pairs]. rewrite !hex_to_int_16.
    destruct (is_hex_char a) eqn:Ea; cbn [negb orb].
    2:{ split; [|reflexivity]. intros _. exists a. split; [left|assumption]. }
    destruct (is_hex_char b) eqn:Eb; cbn [negb orb].
    2:{ split; [|reflexivity]. intros _. exists b. split; [right; left|assumption]. }
    destruct (hex_pairs l) as [d|].
    + split; [discriminate|]. intros (c & Hc & Hn).
      apply elem_of_cons in Hc as [->|Hc]; [congruence|].
      apply elem_of_cons in Hc as [->|Hc]; [congruence|].
      destruct IH as [_ IH]. discriminate IH. eauto.
    + split; [|reflexivity]. intros _.
      destruct IH as [IH _]. destruct (IH eq_refl) as (c & Hc & Hn).
      exists c. split; [right; right; assumption|assumption].
Qed.

Lemma hex_pairs_Some (hex d : list byte) :
  hex_pairs hex = Some d ->
  length hex mod 2 = 0 ->
  length d = length hex / 2
  /\ forall i c1 c2, hex !! (2 * i) = Some c1 -> hex !! (2 * i + 1) = Some c2 ->
       d !! i = Some (byte_of_nat (hex_to_int c1 * 16 + hex_to_int c2)).
Proof.
  revert d. induction hex as [|a|a b l IH] using pair_induction; intros d Hd He.
  - injection Hd as <-. split; [reflexivity|]. intros i c1 c2 H. discriminate.
  - discriminate.
  - cbn [length] in He. rewrite mod2_SS in He.
    cbn [hex_pairs] in Hd.
    destruct ((hex_to_int a =? 16) || (hex_to_int b =? 16)); [discriminate|].
    destruct (hex_pairs l) as [d'|]; [|discriminate].
    injection Hd as <-. destruct (IH d' eq_refl He) as [IHl IHi].
    cbn [length]. rewrite div2_SS. split; [lia|].
    intros [|i] c1 c2 H1 H2.
    + cbn in H1, H2. injection H1 as <-. injection H2 as <-. reflexivity.
    + replace (2 * S i) with (S (S (2 * i))) in H1 by lia.
      replace (2 * S i + 1) with (S (S (2 * i + 1))) in H2 by lia.
      cbn [lookup list_lookup] in *. now apply IHi.
Qed.

Lemma buffer_to_hex_loop_spec (buffer : list byte) :
  forall fuel i done,
    i <= length buffer -> length buffer - i <= fuel -> length done = 2 * i ->
    buffer_to_hex_loop fuel buffer i (done ++ replicate (2 * (length buffer - i)) x00)
    = Ok (done ++ buffer_to_hex_list (drop i buffer)).
Proof.
  intros fuel. induction fuel as [|fuel IH]; intros i done Hi Hf Hd.
  - assert (i = length buffer) by lia. subst i. cbn [buffer_to_hex_loop].
    rewrite Nat.ltb_irrefl. cbn [negb]. rewrite Nat.sub_diag, drop_ge by lia. reflexivity.
  - cbn [buffer_to_hex_loop].
    destruct (Nat.ltb_spec i (length buffer)) as [Hlt|Hge]; cbn [negb].
    + destruct (drop_cons_lt buffer i Hlt) as [c E]. rewrite E.
      apply get_drop in E as (G & _ & _). rewrite G. cbn [bind buffer_to_hex_list].
      destruct (hex_upper_get c) as [-> ->]. cbn [bind].
      replace (2 * (length buffer - i)) with (S (S (2 * (length buffer - (i + 1))))) by lia.
      cbn [replicate].
      rewrite <- Hd. rewrite put_middle. cbn [bind].
      replace (length done + 1) with (length (done ++ [digit_of hex_upper (u8 c mod 16)]))
        by (rewrite length_app; reflexivity).
      rewrite put_middle. cbn [bind].
      rewrite IH; [|lia|lia|rewrite !length_app; cbn [length]; lia].
      replace (i + 1) with (S i) by lia.
      now rewrite <- !app_assoc.
    + assert (i = length buffer) by lia. subst i.
      rewrite Nat.sub_diag, drop_ge by lia. reflexivity.
Qed.

Lemma buffer_to_hex_spec (buffer : list byte) :
  buffer_to_hex buffer = Ok (buffer_to_hex_list buffer).
Proof.
  unfold buffer_to_hex.
  pose proof (buffer_to_hex_loop_spec buffer (length buffer) 0 []) as H.
  rewrite Nat.sub_0_r in H. apply H; [lia|lia|reflexivity].
Qed.

Lemma buffer_to_hex_list_length (data : list byte) :
  length (buffer_to_hex_list data) = 2 * length data.
Proof. induction data; simpl; lia. Qed.

Lemma buffer_to_hex_list_lookup (data : list byte) (i : nat) (c : byte) :
  data !! i = Some c ->
  buffer_to_hex_list data !! (2 * i) = Some (digit_of hex_upper (u8 c mod 16))
  /\ buffer_to_hex_list data !! (2 * i + 1) = Some (digit_of hex_upper (u8 c / 16)).
Proof.
  revert i. induction data as [|d data IH]; intros i H; [discriminate|].
  destruct i as [|i].
  - injection H as ->. split; reflexivity.
  - simpl in H. apply IH in H.
    replace (2 * S i) with (S (S (2 * i))) by lia. exact H.
Qed.

Lemma to_upper_lower_digit (c : byte) :
  to_upper (digit_of hex_lower (u8 c / 16)) = digit_of hex_upper (u8 c / 16)
  /\ to_upper (digit_of hex_lower (u8 c mod 16)) = digit_of hex_upper (u8 c mod 16).
Proof. by_byte_cases c. Qed.

Lemma buffer_to_hex_list_swap (data : list byte) :
  buffer_to_hex_list data = swap_pairs (map to_upper (hex_encode_list data)).
Proof.
  induction data as [|c data IH]; [reflexivity|].
  cbn [buffer_to_hex_list hex_encode_list map swap_pairs].
  destruct (to_upper_lower_digit c) as [-> ->]. now rewrite IH.
Qed.

Lemma hex_pairs_buffer_to_hex (data : list byte) :
  hex_pairs (buffer_to_hex_list data) = Some (map swap_nibbles data).
Proof.
  induction data as [|c data IH]; [reflexivity|].
  cbn [buffer_to_hex_list hex_pairs map]. unfold hex_pair.
  destruct (hex_to_int_upper c) as [-> ->].
  pose proof (Nat.mod_upper_bound (u8 c) 16).
  pose proof (u8_lt c).
  assert (u8 c / 16 < 16) by (apply Nat.Div0.div_lt_upper_bound; lia).
  destruct (Nat.eqb_spec (u8 c / 16) 16); [lia|].
  destruct (Nat.eqb_spec (u8 c mod 16) 16); [lia|].
  cbn [orb]. rewrite IH. reflexivity.
Qed.

(** ** Percent codec: encoding *)

Lemma url_encode_loop_spec (data result : list byte) :
  url_encode_loop data result = Ok (result ++ url_encode_list data).
Proof.
  revert result. induction data as [|c data IH]; intros result;
    cbn [url_encode_loop url_encode_list].
  - now rewrite app_nil_r.
  - destruct (is_url_char c).
    + rewrite IH. now rewrite <- app_assoc.
    + destruct (hex_upper_get_div c) as [-> ->]. cbn [bind].
      rewrite IH. now rewrite <- !app_assoc.
Qed.

Lemma count_unreserved_le (data : list byte) : count_unreserved data <= length data.
Proof.
  induction data as [|c data IH]; cbn [count_unreserved length]; [lia|].
  destruct (is_url_char c); lia.
Qed.

Lemma url_encode_list_length (data : list byte) :
  length (url_encode_list data) + 2 * count_unreserved data = 3 * length data.
Proof.
  induction data as [|c data IH]; cbn [url_encode_list count_unreserved length]; [lia|].
  destruct (is_url_char c); cbn [length]; lia.
Qed.

Lemma url_encode_length_fold (data : list byte) (acc : Z) :
  fold_left (fun len c => (len - 2 * (if is_url_char c then 1 else 0))%Z) data acc
  = (acc - 2 * Z.of_nat (count_unreserved data))%Z.
Proof.
  revert acc. induction data as [|c data IH]; intros acc;
    cbn [fold_left count_unreserved]; [lia|].
  rewrite IH. destruct (is_url_char c); lia.
Qed.

Lemma url_encode_length_spec (data : list byte) :
  url_encode_length data
  = (3 * Z.of_nat (length data) - 2 * Z.of_nat (count_unreserved data))%Z.
Proof. unfold url_encode_length. apply url_encode_length_fold. Qed.

Lemma url_encode_length_produced (data : list byte) :
  url_encode_length data = Z.of_nat (length (url_encode_list data)).
Proof.
  rewrite url_encode_length_spec.
  pose proof (url_encode_list_length data). lia.
Qed.

Lemma url_encode_length_size_t_fold (data : list byte) (acc : Z) :
  fold_left (fun len c => size_t_wrap (len - 2 * (if is_url_char c then 1 else 0)))
            data (size_t_wrap acc)
  = size_t_wrap
      (fold_left (fun len c => (len - 2 * (if is_url_char c then 1 else 0))%Z) data acc).
Proof.
  revert acc. induction data as [|c data IH]; intros acc; cbn [fold_left]; [reflexivity|].
  rewrite <- IH. f_equal. unfold size_t_wrap. apply Zminus_mod_idemp_l.
Qed.

Lemma url_encode_length_size_t_spec (data : list byte) :
  url_encode_length_size_t data = size_t_wrap (url_encode_length data).
Proof. apply url_encode_length_size_t_fold. Qed.

(** The machine's value is the exact one as soon as the encoded string has a
    length that [size_t] can hold. *)
Lemma url_encode_length_size_t_exact (data : list byte) :
  (Z.of_nat (length (url_encode_list data)) < 2 ^ 64)%Z ->
  url_encode_length_size_t data = url_encode_length data.
Proof.
  intros H. rewrite url_encode_length_size_t_spec, url_encode_length_produced.
  unfold size_t_wrap. apply Z.mod_small. lia.
Qed.

(** The machine's comparison [length == data.size()] decides as the exact one
    for every buffer below [2^63] bytes. *)
Lemma url_encode_length_size_t_branch (data : list byte) :
  (Z.of_nat (length data) < 2 ^ 63)%Z ->
  (url_encode_length_size_t data =? Z.of_nat (length data))%Z
  = (url_encode_length data =? Z.of_nat (length data))%Z.
Proof.
  intros H. rewrite url_encode_length_size_t_spec, url_encode_length_spec.
  pose proof (count_unreserved_le data) as Hk. unfold size_t_wrap.
  destruct (Z.eqb_spec
              ((3 * Z.of_nat (length data) - 2 * Z.of_nat (count_unreserved data)) mod 2 ^ 64)
              (Z.of_nat (length data))) as [E|E];
    destruct (Z.eqb_spec
                (3 * Z.of_nat (length data) - 2 * Z.of_nat (count_unreserved data))
                (Z.of_nat (length data))) as [E'|E'];
    try reflexivity; exfalso.
  - revert E. Z.div_mod_to_equations. lia.
  - apply E. rewrite E'. apply Z.mod_small. lia.
Qed.

Lemma url_encode_list_unreserved (data : list byte) :
  count_unreserved data = length data -> url_encode_list data = data.
Proof.
  induction data as [|c data IH]; cbn [url_encode_list count_unreserved length];
    [reflexivity|].
  pose proof (count_unreserved_le data) as Hle.
  destruct (is_url_char c); intros H; [|lia].
  f_equal. apply IH. lia.
Qed.

Lemma url_encode_spec (data : list byte) : url_encode data = Ok (url_encode_list data).
Proof.
  unfold url_encode.
  destruct (Z.eqb_spec (url_encode_length data) (Z.of_nat (length data))) as [E|E].
  - f_equal. symmetry. apply url_encode_list_unreserved.
    rewrite url_encode_length_spec in E. lia.
  - rewrite url_encode_loop_spec. cbn [bind app].
    rewrite url_encode_length_produced, Z.eqb_refl. reflexivity.
Qed.

(** ** Percent codec: the format decoder *)

Lemma url_decode_list_literal (plus : bool) (c : byte) (t : list byte) :
  char_eq c "%" && escape_follows t = false ->
  url_decode_list plus (c :: t) = plus_or_self plus c :: url_decode_list plus t.
Proof.
  intros H. cbn [url_decode_list].
  destruct t as [|c1 [|c2 t']]; try reflexivity.
  cbn [escape_follows] in H. rewrite <- andb_assoc, H. reflexivity.
Qed.

Lemma url_decode_list_escape (plus : bool) (c1 c2 : byte) (t : list byte) :
  is_hex_char c1 = true -> is_hex_char c2 = true ->
  url_decode_list plus ("%"%byte :: c1 :: c2 :: t) = hex_pair c1 c2 :: url_decode_list plus t.
Proof.
  intros H1 H2. cbn [url_decode_list].
  rewrite !hex_to_int_lt_16, H1, H2. reflexivity.
Qed.

Lemma is_url_char_not_percent (c : byte) : is_url_char c = true -> char_eq c "%" = false.
Proof. destruct c; vm_compute; congruence. Qed.

Lemma is_url_char_not_plus (c : byte) : is_url_char c = true -> char_eq c "+" = false.
Proof. destruct c; vm_compute; congruence. Qed.

Lemma hex_upper_is_hex (c : byte) :
  is_hex_char (digit_of hex_upper (u8 c / 16)) = true
  /\ is_hex_char (digit_of hex_upper (u8 c mod 16)) = true.
Proof. by_byte_cases c. Qed.

Lemma hex_pair_upper (c : byte) :
  hex_pair (digit_of hex_upper (u8 c / 16)) (digit_of hex_upper (u8 c mod 16)) = c.
Proof.
  unfold hex_pair. destruct (hex_to_int_upper c) as [-> ->]. apply nibbles_byte.
Qed.

Lemma url_decode_encode_list (plus : bool) (data : list byte) :
  url_decode_list plus (url_encode_list data) = data.
Proof.
  induction data as [|c data IH]; [reflexivity|].
  cbn [url_encode_list]. destruct (is_url_char c) eqn:E.
  - rewrite url_decode_list_literal
      by (rewrite (is_url_char_not_percent c E); reflexivity).
    rewrite IH. unfold plus_or_self.
    rewrite (is_url_char_not_plus c E), andb_false_r. reflexivity.
  - destruct (hex_upper_is_hex c) as [H1 H2].
    rewrite url_decode_list_escape by assumption.
    now rewrite hex_pair_upper, IH.
Qed.

Lemma url_decode_list_length_le (plus : bool) (n : nat) :
  forall s, length s <= n -> length (url_decode_list plus s) <= length s.
Proof.
  induction n as [|n IH]; intros s Hs.
  - destruct s; [reflexivity|cbn [length] in Hs; lia].
  - destruct s as [|c t]; [reflexivity|].
    destruct (char_eq c "%" && escape_follows t) eqn:E.
    + apply andb_true_iff in E as [Ec Et].
      destruct t as [|c1 [|c2 t']]; try discriminate.
      apply char_eq_true in Ec as ->. cbn [escape_follows] in Et.
      apply andb_true_iff in Et as [E1 E2]. rewrite hex_to_int_lt_16 in E1, E2.
      rewrite url_decode_list_escape by assumption.
      cbn [length] in *. specialize (IH t'). lia.
    + rewrite url_decode_list_literal by assumption.
      cbn [length] in *. specialize (IH t). lia.
Qed.

Lemma url_decode_list_length (plus : bool) (s : list byte) :
  length (url_decode_list plus s) <= length s.
Proof. now apply (url_decode_list_length_le plus (length s)). Qed.

(** ** Percent codec: the decoding loop on the store *)

Lemma region_cons (m : store) (p k : nat) :
  p < length m ->
  exists c, m !! p = Some c /\ take (S k) (drop p m) = c :: take k (drop (S p) m).
Proof.
  intros H. destruct (lookup_lt_is_Some_2 m p H) as [c Hc].
  exists c. split; [assumption|]. now rewrite (drop_S _ _ _ Hc).
Qed.

Lemma region_length (m : store) (p k : nat) :
  p + k <= length m -> length (take k (drop p m)) = k.
Proof. intros H. rewrite length_take, length_drop. lia. Qed.

Lemma region_insert_outside (m : store) (p k a : nat) (x : byte) :
  a < p \/ p + k <= a -> take k (drop p (<[a := x]> m)) = take k (drop p m).
Proof.
  intros [H|H].
  - now rewrite drop_insert_lt.
  - rewrite drop_insert_ge by lia. apply take_insert_ge. lia.
Qed.

Lemma region_insert_end (m : store) (p i : nat) (x : byte) :
  p + i < length m ->
  take (S i) (drop p (<[p + i := x]> m)) = take i (drop p m) ++ [x].
Proof.
  intros H. rewrite drop_insert_ge by lia.
  replace (p + i - p) with i by lia.
  rewrite (take_S_r _ _ x).
  - now rewrite take_insert_ge.
  - apply list_lookup_insert_eq. rewrite length_drop. lia.
Qed.

Lemma load_Some (m : store) (s : Slice) (i : nat) (c : byte) :
  i < size s -> m !! (ptr s + i) = Some c -> load m s i = Ok c.
Proof.
  intros Hi Hc. unfold load.
  destruct (Nat.ltb_spec i (size s)); [|lia]. now apply get_Some.
Qed.

Lemma write_inside (m : store) (s : Slice) (i : nat) (x : byte) :
  i < size s -> ptr s + i < length m -> write m s i x = Ok (<[ptr s + i := x]> m).
Proof.
  intros Hi Hm. unfold write, put.
  destruct (Nat.ltb_spec i (size s)); [|lia].
  destruct (Nat.ltb_spec (ptr s + i) (length m)); [reflexivity|lia].
Qed.

Lemma url_decode_literal_spec (from to : Slice) (plus : bool) (st : cursor) (c : byte) :
  decode_inv from to st -> from_i st < size from ->
  mem st !! (ptr from + from_i st) = Some c ->
  url_decode_literal from to plus st
  = Ok {| from_i := from_i st + 1; to_i := to_i st + 1;
          mem := <[ptr to + to_i st := plus_or_self plus c]> (mem st) |}.
Proof.
  intros (H1 & H2 & H3 & H4 & H5) Hlt Hc. unfold url_decode_literal.
  rewrite (load_Some _ _ _ c) by assumption. cbn [bind].
  fold (plus_or_self plus c).
  rewrite write_inside by lia. reflexivity.
Qed.

Lemma decode_inv_step (from to : Slice) (st : cursor) (d : nat) (x : byte) :
  decode_inv from to st -> 1 <= d -> from_i st + d <= size from ->
  decode_inv from to {| from_i := from_i st + d; to_i := to_i st + 1;
                        mem := <[ptr to + to_i st := x]> (mem st) |}.
Proof.
  intros (H1 & H2 & H3 & H4 & H5) Hd Hn. unfold decode_inv. cbn [from_i to_i mem].
  rewrite length_insert. repeat split; lia.
Qed.

Lemma unread_step (from to : Slice) (st : cursor) (d : nat) (x : byte) :
  decode_inv from to st -> 1 <= d -> from_i st + d <= size from ->
  unread from {| from_i := from_i st + d; to_i := to_i st + 1;
                 mem := <[ptr to + to_i st := x]> (mem st) |}
  = take (size from - (from_i st + d)) (drop (ptr from + (from_i st + d)) (mem st)).
Proof.
  intros (H1 & H2 & H3 & H4 & H5) Hd Hn. unfold unread. cbn [from_i to_i mem].
  apply region_insert_outside. lia.
Qed.

Lemma written_step (from to : Slice) (st : cursor) (d : nat) (x : byte) :
  decode_inv from to st -> from_i st < size from ->
  written to {| from_i := from_i st + d; to_i := to_i st + 1;
                mem := <[ptr to + to_i st := x]> (mem st) |}
  = written to st ++ [x].
Proof.
  intros (H1 & H2 & H3 & H4 & H5) Hlt. unfold written. cbn [from_i to_i mem].
  replace (to_i st + 1) with (S (to_i st)) by lia.
  apply region_insert_end. lia.
Qed.

Lemma url_decode_body_spec (from to : Slice) (plus : bool) (st : cursor) :
  decode_inv from to st -> from_i st < size from ->
  exists st' x,
    url_decode_body from to plus (size from) st = Ok st'
    /\ decode_inv from to st'
    /\ from_i st < from_i st'
    /\ to_i st' = to_i st + 1
    /\ length (mem st') = length (mem st)
    /\ url_decode_list plus (unread from st) = x :: url_decode_list plus (unread from st')
    /\ written to st' = written to st ++ [x].
Proof.
  intros Hinv Hlt. pose proof Hinv as (H1 & H2 & H3 & H4 & H5).
  set (n := size from) in *. set (p := ptr from + from_i st).
  assert (Hun : unread from st = take (n - from_i st) (drop p (mem st))) by reflexivity.
  destruct (region_cons (mem st) p (n - from_i st - 1)) as (c & Hc & Ec); [lia|].
  replace (S (n - from_i st - 1)) with (n - from_i st) in Ec by lia.
  rewrite Ec in Hun.
  (* the step that takes the byte as a literal *)
  assert (Literal :
    char_eq c "%" && escape_follows (take (n - from_i st - 1) (drop (S p) (mem st))) = false ->
    exists st' x,
      url_decode_literal from to plus st = Ok st'
      /\ decode_inv from to st'
      /\ from_i st < from_i st'
      /\ to_i st' = to_i st + 1
      /\ length (mem st') = length (mem st)
      /\ url_decode_list plus (unread from st) = x :: url_decode_list plus (unread from st')
      /\ written to st' = written to st ++ [x]).
  { intros Hesc. eexists. exists (plus_or_self plus c).
    split; [now apply (url_decode_literal_spec from to plus st c)|].
    split; [apply decode_inv_step; fold n; lia || assumption|].
    cbn [from_i to_i mem]. split; [lia|]. split; [reflexivity|].
    split; [apply length_insert|]. split.
    - rewrite Hun, url_decode_list_literal by assumption. f_equal. f_equal.
      rewrite unread_step by (fold n; lia || assumption). fold n.
      replace (ptr from + (from_i st + 1)) with (S p) by (unfold p; lia).
      replace (n - (from_i st + 1)) with (n - from_i st - 1) by lia. reflexivity.
    - now apply (written_step from). }
  unfold url_decode_body.
  rewrite (load_Some _ _ _ c) by assumption. cbn [bind]. fold n.
  destruct (char_eq c "%") eqn:Ecp; cbn [andb].
  2:{ apply Literal. reflexivity. }
  destruct (Nat.ltb_spec (from_i st + 2) n) as [H2n|H2n].
  2:{ apply Literal. cbn [andb].
      destruct (take (n - from_i st - 1) (drop (S p) (mem st))) as [|c1 [|c2 t]] eqn:Et;
        try reflexivity.
      apply (f_equal length) in Et. rewrite region_length in Et by (unfold p; lia).
      cbn [length] in Et. lia. }
  destruct (region_cons (mem st) (S p) (n - from_i st - 2)) as (c1 & Hc1 & Ec1);
    [unfold p; lia|].
  destruct (region_cons (mem st) (S (S p)) (n - from_i st - 3)) as (c2 & Hc2 & Ec2);
    [unfold p; lia|].
  replace (S (n - from_i st - 2)) with (n - from_i st - 1) in Ec1 by lia.
  replace (S (n - from_i st - 3)) with (n - from_i st - 2) in Ec2 by lia.
  rewrite Ec1, Ec2 in Literal. rewrite Ec1, Ec2 in Hun.
  rewrite (load_Some _ _ _ c1)
    by (lia || (replace (ptr from + (from_i st + 1)) with (S p) by (unfold p; lia); assumption)).
  rewrite (load_Some _ _ _ c2)
    by (lia || (replace (ptr from + (from_i st + 2)) with (S (S p)) by (unfold p; lia); assumption)).
  cbn [bind].
  destruct ((hex_to_int c1 <? 16) && (hex_to_int c2 <? 16)) eqn:Ehex.
  2:{ apply Literal. cbn [escape_follows]. rewrite Ehex. reflexivity. }
  rewrite write_inside by lia. cbn [bind].
  replace (from_i st + 2 + 1) with (from_i st + 3) by lia.
  eexists. exists (hex_pair c1 c2). split; [reflexivity|].
  split; [apply decode_inv_step; fold n; lia || assumption|].
  cbn [from_i to_i mem]. split; [lia|]. split; [reflexivity|].
  split; [apply length_insert|]. split.
  - rewrite Hun. apply char_eq_true in Ecp. subst c.
    apply andb_true_iff in Ehex as [E1 E2]. rewrite hex_to_int_lt_16 in E1, E2.
    rewrite url_decode_list_escape by assumption. f_equal. f_equal.
    rewrite unread_step by (fold n; lia || assumption). fold n.
    replace (ptr from + (from_i st + 3)) with (S (S (S p))) by (unfold p; lia).
    replace (n - (from_i st + 3)) with (n - from_i st - 3) by lia. reflexivity.
  - now apply (written_step from).
Qed.

Lemma url_decode_loop_spec (from to : Slice) (plus : bool) :
  forall fuel st,
    decode_inv from to st ->
    size from - from_i st <= fuel ->
    exists st',
      url_decode_loop fuel from to plus (size from) st = Ok st'
      /\ from_i st' = size from
      /\ decode_inv from to st'
      /\ length (mem st') = length (mem st)
      /\ written to st' = written to st ++ url_decode_list plus (unread from st).
Proof.
  assert (Done : forall fuel st,
    decode_inv from to st -> size from <= from_i st ->
    exists st',
      url_decode_loop fuel from to plus (size from) st = Ok st'
      /\ from_i st' = size from
      /\ decode_inv from to st'
      /\ length (mem st') = length (mem st)
      /\ written to st' = written to st ++ url_decode_list plus (unread from st)).
  { intros fuel st Hinv Hge. pose proof Hinv as (H1 & _). exists st.
    assert (E : size from - from_i st = 0) by lia.
    split; [|split; [lia|split; [assumption|split; [reflexivity|]]]].
    - destruct fuel; cbn [url_decode_loop];
        destruct (Nat.ltb_spec (from_i st) (size from)); reflexivity || lia.
    - unfold unread. rewrite E, take_0. cbn [url_decode_list].
      now rewrite app_nil_r. }
  intros fuel. induction fuel as [|fuel IH]; intros st Hinv Hf.
  - apply Done; [assumption|lia].
  - destruct (Nat.lt_ge_cases (from_i st) (size from)) as [Hlt|Hge];
      [|now apply Done].
    cbn [url_decode_loop].
    destruct (Nat.ltb_spec (from_i st) (size from)); [|lia]. cbn [negb].
    destruct (url_decode_body_spec from to plus st Hinv Hlt)
      as (st1 & x & Hb & Hinv1 & Hadv & Hto & Hlen & Hdec & Hwr).
    rewrite Hb. cbn [bind].
    destruct (IH st1 Hinv1) as (st' & Hl & Hfi & Hinv' & Hlen' & Hwr'); [lia|].
    exists st'. split; [assumption|]. split; [assumption|]. split; [assumption|].
    split; [congruence|].
    rewrite Hwr', Hwr, Hdec, <- app_assoc. reflexivity.
Qed.

Lemma url_decode_to_spec (from to : Slice) (plus : bool) (m : store) :
  size from <= size to ->
  ptr from + size from <= length m ->
  ptr to + size to <= length m ->
  ptr to <= ptr from \/ ptr from + size from <= ptr to ->
  exists k m',
    url_decode_to from to plus m = Ok (k, m')
    /\ k = length (url_decode_list plus (view m from))
    /\ k <= size from
    /\ length m' = length m
    /\ take k (drop (ptr to) m') = url_decode_list plus (view m from).
Proof.
  intros Hs Hf Ht Ha. unfold url_decode_to.
  destruct (Nat.leb_spec (size from) (size to)); [|lia]. cbn [negb].
  set (st0 := {| from_i := 0; to_i := 0; mem := m |}).
  assert (Hinv : decode_inv from to st0) by (unfold decode_inv; cbn; lia).
  destruct (url_decode_loop_spec from to plus (size from) st0 Hinv)
    as (st' & Hl & Hfi & Hinv' & Hlen & Hwr); [cbn; lia|].
  rewrite Hl. cbn [bind]. exists (to_i st'), (mem st').
  assert (Hun : unread from st0 = view m from).
  { unfold unread, view. cbn [from_i mem]. now rewrite Nat.sub_0_r, Nat.add_0_r. }
  unfold written in Hwr. cbn [to_i mem] in Hwr. rewrite take_0, Hun in Hwr. cbn [app] in Hwr.
  destruct Hinv' as (I1 & I2 & I3 & I4 & I5).
  assert (Hk : to_i st' = length (url_decode_list plus (view m from))).
  { rewrite <- Hwr. rewrite region_length; [reflexivity|lia]. }
  split; [reflexivity|]. split; [assumption|]. split.
  - rewrite Hk. etransitivity; [apply url_decode_list_length|].
    unfold view. rewrite length_take. lia.
  - split; assumption.
Qed.

Lemma url_decode_spec (from : list byte) (plus : bool) :
  url_decode from plus = Ok (url_decode_list plus from).
Proof.
  unfold url_decode.
  set (n := length from). set (m := from ++ replicate n x00).
  assert (Hm : length m = n + n) by (unfold m; now rewrite length_app, length_replicate).
  destruct (url_decode_to_spec {| ptr := 0; size := n |} {| ptr := n; size := n |} plus m)
    as (k & m' & Hd & Hk & Hkn & Hlen & Hout); cbn [ptr size]; try lia.
  assert (Hv : view m {| ptr := 0; size := n |} = from).
  { unfold view, m. cbn [ptr size]. rewrite drop_0. now apply take_app_length. }
  rewrite Hv in *. rewrite Hd. cbn [bind]. f_equal.
  cbn [size] in Hkn.
  unfold view. cbn [ptr size].
  rewrite resize_le by (rewrite length_take, length_drop; lia).
  rewrite take_take. replace (k `min` n) with k by lia. exact Hout.
Qed.

Lemma url_decode_inplace_spec (str : Slice) (plus : bool) (m : store) :
  ptr str + size str <= length m ->
  exists str' m',
    url_decode_inplace str plus m = Ok (str', m')
    /\ ptr str' = ptr str
    /\ size str' = length (url_decode_list plus (view m str))
    /\ length m' = length m
    /\ view m' str' = url_decode_list plus (view m str).
Proof.
  intros Hv. unfold url_decode_inplace.
  destruct (url_decode_to_spec str str plus m) as (k & m' & Hd & Hk & Hkn & Hlen & Hout);
    try lia.
  rewrite Hd. cbn [bind]. exists (truncate str k), m'.
  split; [reflexivity|]. split; [reflexivity|].
  unfold view, truncate. cbn [ptr size].
  replace (size str `min` k) with k by lia.
  split; [assumption|]. split; assumption.
Qed.

Lemma url_decode_reaches_inv (from to : Slice) (plus : bool) (m : store) :
  decode_inv from to {| from_i := 0; to_i := 0; mem := m |} ->
  forall st, url_decode_reaches from to plus m st ->
    decode_inv from to st /\ to_i st <= from_i st.
Proof.
  intros H0 st Hr. induction Hr as [|st st' Hr [IHinv IHle] Hlt Hb].
  - split; [assumption|cbn; lia].
  - destruct (url_decode_body_spec from to plus st IHinv Hlt)
      as (st1 & x & Hb1 & Hinv1 & Hadv & Hto & _).
    rewrite Hb in Hb1. injection Hb1 as <-. split; [assumption|lia].
Qed.


Lemma load_inside (m : store) (s : Slice) (i : nat) :
  i < size s -> ptr s + size s <= length m -> exists c, load m s i = Ok c.
Proof.
  intros Hi Hm. destruct (lookup_lt_is_Some_2 m (ptr s + i)) as [c Hc]; [lia|].
  exists c. now apply load_Some.
Qed.

Lemma url_decode_body_total (from to : Slice) (plus : bool) (st : cursor) :
  decode_bounds from to st -> from_i st < size from ->
  exists st',
    url_decode_body from to plus (size from) st = Ok st'
    /\ decode_bounds from to st'
    /\ from_i st < from_i st'
    /\ to_i st' = to_i st + 1.
Proof.
  intros (H1 & H2 & H3 & H4) Hlt.
  assert (Literal : exists st',
    url_decode_literal from to plus st = Ok st'
    /\ decode_bounds from to st' /\ from_i st < from_i st' /\ to_i st' = to_i st + 1).
  { unfold url_decode_literal.
    destruct (load_inside (mem st) from (from_i st)) as [c ->]; [lia|lia|]. cbn [bind].
    rewrite write_inside by lia. cbn [bind]. eexists. split; [reflexivity|].
    unfold decode_bounds. cbn [from_i to_i mem]. rewrite length_insert.
    repeat split; lia. }
  unfold url_decode_body.
  destruct (load_inside (mem st) from (from_i st)) as [c ->]; [lia|lia|]. cbn [bind].
  destruct (char_eq c "%"); cbn [andb]; [|exact Literal].
  destruct (Nat.ltb_spec (from_i st + 2) (size from)); [|exact Literal].
  destruct (load_inside (mem st) from (from_i st + 1)) as [c1 ->]; [lia|lia|].
  destruct (load_inside (mem st) from (from_i st + 2)) as [c2 ->]; [lia|lia|].
  cbn [bind].
  destruct ((hex_to_int c1 <? 16) && (hex_to_int c2 <? 16)); [|exact Literal].
  rewrite write_inside by lia. cbn [bind]. eexists. split; [reflexivity|].
  unfold decode_bounds. cbn [from_i to_i mem]. rewrite length_insert.
  repeat split; lia.
Qed.

Lemma url_decode_loop_total (from to : Slice) (plus : bool) :
  forall fuel st,
    decode_bounds from to st ->
    size from - from_i st <= fuel ->
    exists st',
      url_decode_loop fuel from to plus (size from) st = Ok st'
      /\ to_i st' + from_i st <= to_i st + from_i st'
      /\ from_i st' <= size from.
Proof.
  intros fuel. induction fuel as [|fuel IH]; intros st Hb Hf.
  - exists st. cbn [url_decode_loop]. pose proof Hb as (H1 & _).
    destruct (Nat.ltb_spec (from_i st) (size from)); [lia|]. cbn [negb].
    split; [reflexivity|lia].
  - cbn [url_decode_loop]. pose proof Hb as (H1 & _).
    destruct (Nat.ltb_spec (from_i st) (size from)) as [Hlt|Hge]; cbn [negb].
    + destruct (url_decode_body_total from to plus st Hb Hlt) as (st1 & -> & Hb1 & Hadv & Hto).
      cbn [bind]. destruct (IH st1 Hb1) as (st' & Hl & Hle & Hn); [lia|].
      exists st'. split; [assumption|lia].
    + exists st. split; [reflexivity|lia].
Qed.

Lemma url_decode_to_total (from to : Slice) (plus : bool) (m : store) :
  size from <= size to ->
  ptr from + size from <= length m ->
  ptr to + size to <= length m ->
  exists k m', url_decode_to from to plus m = Ok (k, m') /\ k <= size from.
Proof.
  intros Hs Hf Ht. unfold url_decode_to.
  destruct (Nat.leb_spec (size from) (size to)); [|lia]. cbn [negb].
  destruct (url_decode_loop_total from to plus (size from)
              {| from_i := 0; to_i := 0; mem := m |})
    as (st' & -> & Hle & Hn); [unfold decode_bounds; cbn; lia|cbn; lia|].
  cbn [bind from_i to_i] in *. exists (to_i st'), (mem st'). split; [reflexivity|lia].
Qed.

Lemma escape_follows_app (pre t : list byte) :
  escape_follows (pre ++ "%"%byte :: t) = escape_follows pre.
Proof.
  destruct pre as [|c1 [|c2 pre]]; cbn [app escape_follows]; try reflexivity.
  - destruct t; reflexivity.
  - rewrite andb_false_r. reflexivity.
Qed.

Lemma url_decode_list_app_percent (plus : bool) (n : nat) :
  forall pre t, length pre <= n ->
    url_decode_list plus (pre ++ "%"%byte :: t)
    = url_decode_list plus pre ++ url_decode_list plus ("%"%byte :: t).
Proof.
  induction n as [|n IH]; intros pre t Hn.
  - destruct pre; [reflexivity|cbn [length] in Hn; lia].
  - destruct pre as [|c pre]; [reflexivity|].
    rewrite <- app_comm_cons.
    destruct (char_eq c "%" && escape_follows pre) eqn:E.
    + apply andb_true_iff in E as [Ec Ee]. apply char_eq_true in Ec as ->.
      destruct pre as [|c1 [|c2 pre']]; try discriminate.
      cbn [escape_follows] in Ee. apply andb_true_iff in Ee as [E1 E2].
      rewrite hex_to_int_lt_16 in E1, E2.
      rewrite <- !app_comm_cons.
      rewrite !url_decode_list_escape by assumption.
      rewrite IH by (cbn [length] in Hn; lia). reflexivity.
    + rewrite (url_decode_list_literal plus c pre) by assumption.
      rewrite url_decode_list_literal by (now rewrite escape_follows_app).
      rewrite IH by (cbn [length] in Hn; lia). reflexivity.
Qed.

(** ** Run codecs *)

Section RunCodec.
Variable f : byte -> bool.

Lemma x_decode_list_literal (c : byte) (t : list byte) :
  f c = false -> x_decode_list f (c :: t) = c :: x_decode_list f t.
Proof. intros H. cbn [x_decode_list]. rewrite H. now destruct t. Qed.

Lemma x_decode_list_run (c k : byte) (t : list byte) :
  f c = true -> x_decode_list f (c :: k :: t) = replicate (u8 k) c ++ x_decode_list f t.
Proof. intros H. cbn [x_decode_list]. now rewrite H. Qed.

Lemma x_decode_list_last (c : byte) : x_decode_list f [c] = [c].
Proof. reflexivity. Qed.

Lemma x_decode_loop_spec (s : list byte) :
  forall fuel i res,
    i <= length s -> length s - i <= fuel ->
    x_decode_loop fuel f s (length s) i res = Ok (res ++ x_decode_list f (drop i s)).
Proof.
  intros fuel. induction fuel as [|fuel IH]; intros i res Hi Hf.
  - cbn [x_decode_loop]. destruct (Nat.ltb_spec i (length s)); [lia|]. cbn [negb].
    rewrite drop_ge by lia. now rewrite app_nil_r.
  - cbn [x_decode_loop].
    destruct (Nat.ltb_spec i (length s)) as [Hlt|Hge]; cbn [negb].
    2:{ rewrite drop_ge by lia. now rewrite app_nil_r. }
    destruct (drop_cons_lt s i Hlt) as [c E]. rewrite E.
    apply get_drop in E as (G & _ & _). rewrite G. cbn [bind].
    destruct (Nat.ltb_spec (i + 1) (length s)) as [Hlt1|Hge1]; cbn [andb].
    + destruct (drop_cons_lt s (S i)) as [k E1]; [lia|]. rewrite E1.
      pose proof E1 as (G1 & _ & _)%get_drop.
      destruct (f c) eqn:Efc.
      * replace (i + 1) with (S i) by lia. rewrite G1. cbn [bind].
        rewrite IH by lia. rewrite x_decode_list_run by assumption.
        replace (S i + 1) with (S (S i)) by lia. now rewrite <- app_assoc.
      * rewrite IH by lia. rewrite x_decode_list_literal by assumption.
        replace (i + 1) with (S i) by lia. rewrite E1, <- app_assoc.
        reflexivity.
    + rewrite IH by lia. rewrite !drop_ge by lia. cbn [x_decode_list].
      now rewrite <- app_assoc.
Qed.

Lemma x_decode_spec (s : list byte) : x_decode s f = Ok (x_decode_list f s).
Proof. unfold x_decode. rewrite x_decode_loop_spec by lia. now rewrite drop_0. Qed.

Lemma x_decode_list_app (p q : list byte) :
  whole_tokens f p -> x_decode_list f (p ++ q) = x_decode_list f p ++ x_decode_list f q.
Proof.
  induction 1 as [|c rest Hc _ IH|c k rest Hc _ IH].
  - reflexivity.
  - rewrite <- app_comm_cons, !x_decode_list_literal by assumption. now rewrite IH.
  - rewrite <- !app_comm_cons, !x_decode_list_run by assumption.
    now rewrite IH, app_assoc.
Qed.

Lemma encoded_form_tokens (e : list byte) : encoded_form f e -> whole_tokens f e.
Proof. induction 1; constructor; assumption. Qed.

Lemma run_drop (s : list byte) (i : nat) (c : byte) :
  forall k, (forall j, j < k -> s !! (i + j) = Some c) ->
    drop i s = replicate k c ++ drop (i + k) s.
Proof.
  induction k as [|k IH]; intros H.
  - now rewrite Nat.add_0_r.
  - rewrite IH by (intros j Hj; apply H; lia).
    rewrite (drop_S s c (i + k)) by (apply H; lia).
    rewrite replicate_S_end, <- app_assoc. cbn [app].
    now replace (i + S k) with (S (i + k)) by lia.
Qed.

Lemma x_encode_count_spec (s : list byte) (i : nat) (c : byte) :
  s !! i = Some c ->
  forall fuel cnt,
    1 <= cnt <= 250 -> 250 - cnt <= fuel -> i + cnt <= length s ->
    (forall j, j < cnt -> s !! (i + j) = Some c) ->
    exists cnt',
      x_encode_count fuel s (length s) i cnt = Ok cnt'
      /\ cnt <= cnt' <= 250
      /\ i + cnt' <= length s
      /\ (forall j, j < cnt' -> s !! (i + j) = Some c)
      /\ (cnt' = 250 \/ i + cnt' = length s \/ s !! (i + cnt') <> Some c).
Proof.
  intros Hc fuel. induction fuel as [|fuel IH]; intros cnt Hcnt Hf Hn Hrun.
  - assert (cnt = 250) by lia. subst cnt. exists 250.
    cbn [x_encode_count]. rewrite Nat.ltb_irrefl. cbn [negb].
    split; [reflexivity|]. repeat split; auto; lia.
  - cbn [x_encode_count].
    destruct (Nat.ltb_spec cnt 250) as [Hlt|Hge]; cbn [negb].
    2:{ exists cnt. split; [reflexivity|]. repeat split; auto; lia. }
    destruct (Nat.ltb_spec (i + cnt) (length s)) as [Hin|Hout]; cbn [negb].
    2:{ exists cnt. split; [reflexivity|]. repeat split; auto; lia. }
    destruct (lookup_lt_is_Some_2 s (i + cnt) Hin) as [a Ha].
    rewrite (get_Some _ _ _ Ha), (get_Some _ _ _ Hc). cbn [bind].
    destruct (char_eq a c) eqn:Eac; cbn [negb].
    2:{ exists cnt. split; [reflexivity|]. repeat split; auto; try lia.
        right. right. rewrite Ha. intros [= ->]. rewrite char_eq_refl in Eac. discriminate. }
    apply char_eq_true in Eac. subst a.
    rewrite Nat.mod_small by lia.
    destruct (IH (cnt + 1)) as (cnt' & Hr & Hb & Hn' & Hrun' & Hmax); try lia.
    { intros j Hj. destruct (Nat.eq_dec j cnt) as [->|]; [assumption|apply Hrun; lia]. }
    exists cnt'. split; [assumption|]. repeat split; auto; lia.
Qed.

Lemma x_encode_loop_spec (s : list byte) :
  forall fuel i res,
    i <= length s -> length s - i <= fuel ->
    exists e,
      x_encode_loop fuel f s (length s) i res = Ok (res ++ e)
      /\ x_decode_list f e = drop i s
      /\ encoded_form f e.
Proof.
  intros fuel. induction fuel as [|fuel IH]; intros i res Hi Hf.
  - exists []. cbn [x_encode_loop]. destruct (Nat.ltb_spec i (length s)); [lia|].
    cbn [negb]. rewrite drop_ge by lia. rewrite app_nil_r.
    split; [reflexivity|]. split; [reflexivity|constructor].
  - cbn [x_encode_loop].
    destruct (Nat.ltb_spec i (length s)) as [Hlt|Hge]; cbn [negb].
    2:{ exists []. rewrite drop_ge by lia. rewrite app_nil_r.
        split; [reflexivity|]. split; [reflexivity|constructor]. }
    destruct (lookup_lt_is_Some_2 s i Hlt) as [c Hc].
    rewrite (get_Some _ _ _ Hc). cbn [bind].
    destruct (f c) eqn:Efc.
    + destruct (x_encode_count_spec s i c Hc 250 1) as (cnt & -> & Hb & Hn & Hrun & _);
        try lia.
      { intros j Hj. replace j with 0 by lia. now rewrite Nat.add_0_r. }
      cbn [bind].
      destruct (IH (i + (cnt - 1) + 1) ((res ++ [c]) ++ [byte_of_nat cnt]))
        as (e & -> & Hdec & Hform); try lia.
      exists (c :: byte_of_nat cnt :: e). split; [now rewrite <- !app_assoc|].
      assert (Hu : u8 (byte_of_nat cnt) = cnt) by (apply u8_byte_of_nat; lia).
      split.
      * rewrite x_decode_list_run by assumption. rewrite Hu, Hdec.
        replace (i + (cnt - 1) + 1) with (i + cnt) by lia.
        symmetry. now apply run_drop.
      * constructor; [assumption|rewrite Hu; lia|assumption].
    + destruct (IH (i + 1) (res ++ [c])) as (e & -> & Hdec & Hform); try lia.
      exists (c :: e). split; [now rewrite <- app_assoc|]. split.
      * rewrite x_decode_list_literal by assumption. rewrite Hdec.
        replace (i + 1) with (S i) by lia. symmetry. now apply drop_S.
      * now constructor.
Qed.

Lemma x_encode_spec (s : list byte) :
  exists e, x_encode s f = Ok e /\ x_decode_list f e = s /\ encoded_form f e.
Proof.
  unfold x_encode.
  destruct (x_encode_loop_spec s (length s) 0 []) as (e & He & Hdec & Hform); try lia.
  exists e. rewrite drop_0 in Hdec. auto.
Qed.

Lemma x_roundtrip (s : list byte) :
  exists e, x_encode s f = Ok e /\ x_decode e f = Ok s.
Proof.
  destruct (x_encode_spec s) as (e & He & Hdec & _).
  exists e. split; [assumption|]. now rewrite x_decode_spec, Hdec.
Qed.

(** No count is itself a sentinel. *)
Hypothesis counts_plain : forall k, 1 <= u8 k <= 250 -> f k = false.

Lemma encoded_form_sentinel (e : list byte) :
  encoded_form f e ->
  forall j c, e !! j = Some c -> f c = true ->
    exists k, e !! (S j) = Some k /\ 1 <= u8 k <= 250.
Proof.
  induction 1 as [|c0 rest Hc0 _ IH|c0 k0 rest Hc0 Hk0 _ IH]; intros j c Hj Hfc.
  - discriminate.
  - destruct j as [|j]; [injection Hj as ->; congruence|]. now apply (IH j c).
  - destruct j as [|[|j]].
    + exists k0. split; [reflexivity|assumption].
    + injection Hj as ->. rewrite counts_plain in Hfc by assumption. discriminate.
    + now apply (IH j c).
Qed.

Lemma count_if_app (g : byte -> bool) (a b : list byte) :
  count_if g (a ++ b) = count_if g a + count_if g b.
Proof. induction a as [|x a IH]; cbn [app count_if]; [reflexivity|]. rewrite IH. lia. Qed.

Lemma count_if_replicate (g : byte -> bool) (n : nat) (c : byte) :
  count_if g (replicate n c) = n * (if g c then 1 else 0).
Proof. induction n as [|n IH]; cbn [replicate count_if]; [reflexivity|]. rewrite IH. lia. Qed.

Lemma encoded_form_length (e : list byte) :
  encoded_form f e ->
  length e = count_if (fun c => negb (f c)) (x_decode_list f e) + 2 * count_if f e.
Proof.
  induction 1 as [|c rest Hc _ IH|c k rest Hc Hk _ IH].
  - reflexivity.
  - rewrite x_decode_list_literal by assumption. cbn [length count_if].
    rewrite Hc. cbn [negb]. lia.
  - rewrite x_decode_list_run by assumption. cbn [length count_if].
    rewrite count_if_app, count_if_replicate, Hc, (counts_plain k Hk). cbn [negb]. lia.
Qed.
End RunCodec.

Lemma is_zero_counts (k : byte) : 1 <= u8 k <= 250 -> is_zero k = false.
Proof. intros H. unfold is_zero. destruct (Nat.eqb_spec (u8 k) 0); [lia|reflexivity]. Qed.

Lemma is_zero_or_one_counts (k : byte) : 1 <= u8 k <= 250 -> is_zero_or_one k = false.
Proof.
  intros H. unfold is_zero_or_one.
  destruct (Nat.eqb_spec (u8 k) 0); [lia|].
  destruct (Nat.eqb_spec (u8 k) 255); [lia|reflexivity].
Qed.

Lemma hex_lower_chars (c : byte) :
  is_lower_hex_char (digit_of hex_lower (u8 c / 16)) = true
  /\ is_lower_hex_char (digit_of hex_lower (u8 c mod 16)) = true.
Proof. by_byte_cases c. Qed.

Lemma hex_upper_chars (c : byte) :
  is_upper_hex_char (digit_of hex_upper (u8 c / 16)) = true
  /\ is_upper_hex_char (digit_of hex_upper (u8 c mod 16)) = true.
Proof. by_byte_cases c. Qed.

Lemma hex_encode_list_lower (data : list byte) :
  Forall (fun c => is_lower_hex_char c = true) (hex_encode_list data).
Proof.
  induction data as [|c data IH]; cbn [hex_encode_list]; [constructor|].
  destruct (hex_lower_chars c). repeat constructor; assumption.
Qed.

Lemma buffer_to_hex_list_upper (data : list byte) :
  Forall (fun c => is_upper_hex_char c = true) (buffer_to_hex_list data).
Proof.
  induction data as [|c data IH]; cbn [buffer_to_hex_list]; [constructor|].
  destruct (hex_upper_chars c). repeat constructor; assumption.
Qed.

(* ===================================================================== *)
(** * Main theorems *)

(** C1: for every byte buffer [b], [zero_decode (zero_encode b) = b] and
    [zero_one_decode (zero_one_encode b) = b]: each run codec's decoder is a
    left inverse of its encoder, and neither of the two calls fails. *)
Theorem run_codecs_roundtrip (b : list byte) :
  (exists e, zero_encode b = Ok e /\ zero_decode e = Ok b)
  /\ (exists e, zero_one_encode b = Ok e /\ zero_one_decode e = Ok b).
Proof. split; apply x_roundtrip. Qed.

(** C2: for every byte buffer [b], [url_decode (url_encode b) false = b]:
    percent-decoding without the plus-sign rule is a left inverse of
    [url_encode]. *)
Theorem url_roundtrip (b : list byte) :
  exists e, url_encode b = Ok e /\ url_decode e false = Ok b.
Proof.
  exists (url_encode_list b). split; [apply url_encode_spec|].
  now rewrite url_decode_spec, url_decode_encode_list.
Qed.

(** C3: for every byte buffer [b], [hex_encode b] has exactly twice the length
    of [b], holds for each byte two lowercase hex characters with the high
    nibble first, and [hex_decode] of it succeeds and returns [b]. *)
Theorem hex_roundtrip (b : list byte) :
  exists e,
    hex_encode b = Ok e
    /\ length e = 2 * length b
    /\ e = hex_encode_list b
    /\ Forall (fun c => is_lower_hex_char c = true) e
    /\ (forall i c, b !! i = Some c ->
          e !! (2 * i) = Some (digit_of hex_lower (u8 c / 16))
          /\ e !! (2 * i + 1) = Some (digit_of hex_lower (u8 c mod 16)))
    /\ hex_decode e = Ok b.
Proof.
  exists (hex_encode_list b). split; [apply hex_encode_spec|].
  split; [apply hex_encode_list_length|]. split; [reflexivity|].
  split; [apply hex_encode_list_lower|].
  split; [apply hex_encode_list_lookup|].
  rewrite hex_decode_spec, hex_encode_list_length, hex_pairs_encode.
  replace (2 * length b) with (length b * 2) by lia.
  rewrite Nat.Div0.mod_mul. reflexivity.
Qed.

(** C4: [url_decode] never fails and its output is at most as long as its
    input, for every input and either value of [decode_plus_sign_as_space]:
    the owned-result variant always, the into-buffer variant whenever the two
    views lie in the store and the destination is at least as large as the
    source. A [%] that is not followed by two hex digits (malformed, or cut
    off by the end of the input) is not decoded and passes through as a
    literal [%], wherever it stands; so [url_decode "%2" false] is ["%2"]. *)
Theorem url_decode_permissive (from : list byte) (decode_plus_sign_as_space : bool) :
  (exists r, url_decode from decode_plus_sign_as_space = Ok r /\ length r <= length from)
  /\ (forall (src dst : Slice) (m : store),
        size src <= size dst ->
        ptr src + size src <= length m ->
        ptr dst + size dst <= length m ->
        exists k m', url_decode_to src dst decode_plus_sign_as_space m = Ok (k, m')
                     /\ k <= size src)
  /\ (forall pre t,
        escape_follows t = false ->
        exists r1 r2,
          url_decode pre decode_plus_sign_as_space = Ok r1
          /\ url_decode t decode_plus_sign_as_space = Ok r2
          /\ url_decode (pre ++ "%"%byte :: t) decode_plus_sign_as_space
             = Ok (r1 ++ "%"%byte :: r2))
  /\ url_decode (bytes_of "%2") false = Ok (bytes_of "%2").
Proof.
  split; [|split; [|split]].
  - exists (url_decode_list decode_plus_sign_as_space from).
    split; [apply url_decode_spec|apply url_decode_list_length].
  - intros src dst m. apply url_decode_to_total.
  - intros pre t Ht. eexists. eexists.
    split; [apply url_decode_spec|]. split; [apply url_decode_spec|].
    rewrite url_decode_spec.
    rewrite (url_decode_list_app_percent _ (length pre)) by lia.
    rewrite url_decode_list_literal by (rewrite Ht; apply andb_false_r).
    unfold plus_or_self. rewrite andb_false_r. reflexivity.
  - reflexivity.
Qed.

Lemma x_encoded_form (f : byte -> bool) (b : list byte) :
  (forall k, 1 <= u8 k <= 250 -> f k = false) ->
  exists e,
    x_encode b f = Ok e
    /\ encoded_form f e
    /\ (forall j c, e !! j = Some c -> f c = true ->
          exists k, e !! (S j) = Some k /\ 1 <= u8 k <= 250)
    /\ length e = count_if (fun c => negb (f c)) b + 2 * count_if f e.
Proof.
  intros Hf. destruct (x_encode_spec f b) as (e & He & Hdec & Hform).
  exists e. split; [assumption|]. split; [assumption|]. split.
  - now apply encoded_form_sentinel.
  - rewrite <- Hdec at 1. now apply encoded_form_length.
Qed.

(** C5: in the output of [zero_encode] and of [zero_one_encode], for every
    input, every sentinel byte is immediately followed by a count between 1
    and 250, and no other byte is followed by a count: the output consists of
    non-sentinel literals and (sentinel, count) pairs only, so its length is
    the number of non-sentinel input bytes plus two per sentinel byte in it.
    300 zero bytes encode to the two pairs (0x00, 250) and (0x00, 50), whose
    counts sum to 300, and decode back to 300 zero bytes. *)
Theorem run_encoded_form (b : list byte) :
  (exists e,
      zero_encode b = Ok e
      /\ encoded_form is_zero e
      /\ (forall j c, e !! j = Some c -> is_zero c = true ->
            exists k, e !! (S j) = Some k /\ 1 <= u8 k <= 250)
      /\ length e = count_if (fun c => negb (is_zero c)) b + 2 * count_if is_zero e)
  /\ (exists e,
        zero_one_encode b = Ok e
        /\ encoded_form is_zero_or_one e
        /\ (forall j c, e !! j = Some c -> is_zero_or_one c = true ->
              exists k, e !! (S j) = Some k /\ 1 <= u8 k <= 250)
        /\ length e
           = count_if (fun c => negb (is_zero_or_one c)) b + 2 * count_if is_zero_or_one e)
  /\ (exists e,
        zero_encode (replicate 300 x00) = Ok e
        /\ run_pairs is_zero e = [(x00, 250); (x00, 50)]
        /\ e = [x00; byte_of_nat 250; x00; byte_of_nat 50]
        /\ 250 + 50 = 300
        /\ zero_decode e = Ok (replicate 300 x00)).
Proof.
  split; [|split].
  - apply x_encoded_form, is_zero_counts.
  - apply x_encoded_form, is_zero_or_one_counts.
  - exists [x00; byte_of_nat 250; x00; byte_of_nat 50].
    split; [vm_compute; reflexivity|]. split; [reflexivity|]. split; [reflexivity|].
    split; [reflexivity|]. vm_compute. reflexivity.
Qed.

(** C6: [hex_decode] fails with [InvalidLength] exactly when the length of
    its input is odd; on an input of even length it fails with
    [InvalidCharacter] exactly when some character is outside [0-9a-fA-F];
    otherwise it succeeds with [len / 2] bytes, the byte at [i] being
    [high * 16 + low] for the digits at [2 i] and [2 i + 1]. *)
Theorem hex_decode_outcomes (hex : list byte) :
  (hex_decode hex = Err InvalidLength <-> length hex mod 2 = 1)
  /\ (length hex mod 2 = 0 ->
        (hex_decode hex = Err InvalidCharacter
         <-> exists c, c ∈ hex /\ is_hex_char c = false))
  /\ (length hex mod 2 = 0 ->
      (forall c, c ∈ hex -> is_hex_char c = true) ->
      exists r,
        hex_decode hex = Ok r
        /\ length r = length hex / 2
        /\ forall i c1 c2,
             hex !! (2 * i) = Some c1 -> hex !! (2 * i + 1) = Some c2 ->
             r !! i = Some (byte_of_nat (hex_to_int c1 * 16 + hex_to_int c2))).
Proof.
  rewrite hex_decode_spec.
  pose proof (Nat.mod_upper_bound (length hex) 2) as Hm.
  split; [|split].
  - destruct (Nat.eqb_spec (length hex mod 2) 0) as [E|E]; cbn [negb].
    + split; [|lia]. destruct (hex_pairs hex); discriminate.
    + split; [lia|reflexivity].
  - intros E. rewrite E. cbn [Nat.eqb negb].
    rewrite <- (hex_pairs_None hex E).
    destruct (hex_pairs hex); split; congruence.
  - intros E Hall. rewrite E. cbn [Nat.eqb negb].
    destruct (hex_pairs hex) as [d|] eqn:Ep.
    + exists d. split; [reflexivity|]. now apply hex_pairs_Some.
    + apply (hex_pairs_None hex E) in Ep as (c & Hc & Hn).
      rewrite (Hall c Hc) in Hn. discriminate.
Qed.

(** C7: for every input of [N] bytes of which [k] are unreserved,
    [url_encode] produces [3 N - 2 k] bytes; the length computed beforehand
    is that number and equals the length of what the second loop builds, so
    the [CHECK] holds; and when that length is [N] the input comes back
    unchanged. *)
Theorem url_encode_length_exact (data : list byte) :
  exists out,
    url_encode data = Ok out
    /\ Z.of_nat (length out)
       = (3 * Z.of_nat (length data) - 2 * Z.of_nat (count_unreserved data))%Z
    /\ url_encode_length data = Z.of_nat (length out)
    /\ (exists result,
          url_encode_loop data [] = Ok result
          /\ Z.of_nat (length result) = url_encode_length data)
    /\ (length out = length data -> out = data).
Proof.
  exists (url_encode_list data). split; [apply url_encode_spec|].
  pose proof (url_encode_list_length data) as Hl.
  split; [lia|]. split; [apply url_encode_length_produced|]. split.
  - exists (url_encode_list data). split; [apply url_encode_loop_spec|].
    now rewrite url_encode_length_produced.
  - intros H. apply url_encode_list_unreserved. lia.
Qed.

(** C8: [zero_decode] and [zero_one_decode] return a result on every input;
    and where the input ends with a sentinel that no count byte follows (what
    precedes it being whole tokens), that sentinel is appended once, as a
    literal. *)
Theorem run_decoders_total (s : list byte) :
  (exists r, zero_decode s = Ok r)
  /\ (exists r, zero_one_decode s = Ok r)
  /\ (forall c, is_zero c = true -> whole_tokens is_zero s ->
        exists r, zero_decode s = Ok r /\ zero_decode (s ++ [c]) = Ok (r ++ [c]))
  /\ (forall c, is_zero_or_one c = true -> whole_tokens is_zero_or_one s ->
        exists r, zero_one_decode s = Ok r /\ zero_one_decode (s ++ [c]) = Ok (r ++ [c])).
Proof.
  unfold zero_decode, zero_one_decode.
  split; [|split; [|split]].
  - eexists. apply x_decode_spec.
  - eexists. apply x_decode_spec.
  - intros c Hc Hs. eexists. split; [apply x_decode_spec|].
    now rewrite x_decode_spec, x_decode_list_app.
  - intros c Hc Hs. eexists. split; [apply x_decode_spec|].
    now rewrite x_decode_spec, x_decode_list_app.
Qed.

(** C9: for every view [str] of the store and either value of
    [decode_plus_sign_as_space], [url_decode_inplace], which decodes the view
    onto itself and truncates it to the written length, leaves in the
    truncated view exactly the bytes that the owned-result [url_decode] returns
    for a copy of the view's bytes; in every state the loop passes through the
    write index is at most the read index. *)
Theorem url_decode_inplace_agrees (m : store) (str : Slice) (decode_plus_sign_as_space : bool) :
  ptr str + size str <= length m ->
  exists str' m' r,
    url_decode_inplace str decode_plus_sign_as_space m = Ok (str', m')
    /\ url_decode (view m str) decode_plus_sign_as_space = Ok r
    /\ view m' str' = r
    /\ ptr str' = ptr str
    /\ size str' = length r
    /\ (forall st, url_decode_reaches str str decode_plus_sign_as_space m st ->
          to_i st <= from_i st).
Proof.
  intros Hv.
  destruct (url_decode_inplace_spec str decode_plus_sign_as_space m Hv)
    as (str' & m' & Hd & Hp & Hs & _ & Hview).
  exists str', m', (url_decode_list decode_plus_sign_as_space (view m str)).
  split; [assumption|]. split; [apply url_decode_spec|].
  split; [assumption|]. split; [assumption|]. split; [assumption|].
  intros st Hr.
  apply (url_decode_reaches_inv str str decode_plus_sign_as_space m); [|assumption].
  unfold decode_inv. cbn [from_i to_i mem]. lia.
Qed.

(** C10: for every byte buffer [b], [buffer_to_hex b] has twice the length of
    [b] and holds for each byte two uppercase hex digits, the low nibble at
    the even position and the high nibble after it: every pair is the
    uppercased pair of [hex_encode] with its two characters exchanged. It is
    therefore not the format [hex_decode] inverts: decoding it gives every
    byte with its nibbles exchanged. *)
Theorem buffer_to_hex_format (b : list byte) :
  exists r e,
    buffer_to_hex b = Ok r
    /\ hex_encode b = Ok e
    /\ length r = 2 * length b
    /\ Forall (fun c => is_upper_hex_char c = true) r
    /\ (forall i c, b !! i = Some c ->
          r !! (2 * i) = Some (digit_of hex_upper (u8 c mod 16))
          /\ r !! (2 * i + 1) = Some (digit_of hex_upper (u8 c / 16)))
    /\ r = swap_pairs (map to_upper e)
    /\ hex_decode r = Ok (map swap_nibbles b)
    /\ (exists b0 r0, buffer_to_hex b0 = Ok r0 /\ hex_decode r0 <> Ok b0).
Proof.
  exists (buffer_to_hex_list b), (hex_encode_list b).
  split; [apply buffer_to_hex_spec|]. split; [apply hex_encode_spec|].
  split; [apply buffer_to_hex_list_length|].
  split; [apply buffer_to_hex_list_upper|].
  split; [apply buffer_to_hex_list_lookup|].
  split; [apply buffer_to_hex_list_swap|]. split.
  - rewrite hex_decode_spec, buffer_to_hex_list_length, hex_pairs_buffer_to_hex.
    replace (2 * length b) with (length b * 2) by lia.
    rewrite Nat.Div0.mod_mul. reflexivity.
  - exists [x12], (bytes_of "21"). split; [reflexivity|]. vm_compute. discriminate.
Qed.

(** ** The main theorems at concrete inputs *)

Lemma url_decode_inplace_agrees_witness :
  1 + 6 <= length (bytes_of "X%41+%4Z")
  /\ exists str' m' r,
       url_decode_inplace (mkSlice 1 6) true (bytes_of "X%41+%4Z") = Ok (str', m')
       /\ url_decode (view (bytes_of "X%41+%4Z") (mkSlice 1 6)) true = Ok r
       /\ view m' str' = r
       /\ ptr str' = 1
       /\ size str' = length r
       /\ (forall st, url_decode_reaches (mkSlice 1 6) (mkSlice 1 6) true (bytes_of "X%41+%4Z") st ->
             to_i st <= from_i st).
Proof.
  assert (H : 1 + 6 <= length (bytes_of "X%41+%4Z")) by (vm_compute; lia).
  split; [exact H|].
  exact (url_decode_inplace_agrees (bytes_of "X%41+%4Z") (mkSlice 1 6) true H).
Defined.

Lemma url_decode_permissive_witness :
  escape_follows (bytes_of "4z") = false
  /\ exists r1 r2,
       url_decode (bytes_of "a%41") true = Ok r1
       /\ url_decode (bytes_of "4z") true = Ok r2
       /\ url_decode (bytes_of "a%41" ++ "%"%byte :: bytes_of "4z") true
          = Ok (r1 ++ "%"%byte :: r2).
Proof.
  assert (H : escape_follows (bytes_of "4z") = false) by reflexivity.
  split; [exact H|].
  exact (proj1 (proj2 (proj2 (url_decode_permissive [] true)))
           (bytes_of "a%41") (bytes_of "4z") H).
Defined.

Lemma run_encoded_form_witness :
  exists e,
    zero_one_encode [x00; x00; xff; x07] = Ok e
    /\ encoded_form is_zero_or_one e
    /\ (forall j c, e !! j = Some c -> is_zero_or_one c = true ->
          exists k, e !! (S j) = Some k /\ 1 <= u8 k <= 250)
    /\ length e
       = count_if (fun c => negb (is_zero_or_one c)) [x00; x00; xff; x07]
         + 2 * count_if is_zero_or_one e.
Proof. exact (proj1 (proj2 (run_encoded_form [x00; x00; xff; x07]))). Defined.

Lemma hex_decode_outcomes_witness :
  length (bytes_of "4a6B") mod 2 = 0
  /\ (forall c, c ∈ bytes_of "4a6B" -> is_hex_char c = true)
  /\ exists r,
       hex_decode (bytes_of "4a6B") = Ok r
       /\ length r = length (bytes_of "4a6B") / 2
       /\ forall i c1 c2,
            bytes_of "4a6B" !! (2 * i) = Some c1 ->
            bytes_of "4a6B" !! (2 * i + 1) = Some c2 ->
            r !! i = Some (byte_of_nat (hex_to_int c1 * 16 + hex_to_int c2)).
Proof.
  assert (He : length (bytes_of "4a6B") mod 2 = 0) by reflexivity.
  assert (Hall : forall c, c ∈ bytes_of "4a6B" -> is_hex_char c = true).
  { intros c Hc. repeat (apply elem_of_cons in Hc as [->|Hc]; [reflexivity|]).
    inversion Hc. }
  split; [exact He|]. split; [exact Hall|].
  exact (proj2 (proj2 (hex_decode_outcomes (bytes_of "4a6B"))) He Hall).
Defined.

Lemma run_decoders_total_witness :
  is_zero x00 = true
  /\ whole_tokens is_zero [x01; x00; x03]
  /\ exists r,
       zero_decode [x01; x00; x03] = Ok r
       /\ zero_decode ([x01; x00; x03] ++ [x00]) = Ok (r ++ [x00]).
Proof.
  assert (Hc : is_zero x00 = true) by reflexivity.
  assert (Ht : whole_tokens is_zero [x01; x00; x03]).
  { apply tokens_literal; [reflexivity|]. apply tokens_run; [reflexivity|]. apply tokens_nil. }
  split; [exact Hc|]. split; [exact Ht|].
  exact (proj1 (proj2 (proj2 (run_decoders_total [x01; x00; x03]))) x00 Hc Ht).
Defined.

(** ** The examples of the design document *)

Example url_encode_examples :
  url_encode [] = Ok []
  /\ url_encode (bytes_of "abc") = Ok (bytes_of "abc")
  /\ url_encode (bytes_of " ") = Ok (bytes_of "%20").
Proof. repeat split; reflexivity. Qed.

Example url_decode_examples :
  url_decode (bytes_of "a+b%2B%zz%4") true = Ok (bytes_of "a b+%zz%4")
  /\ url_decode (bytes_of "a+b%2b%41") false = Ok (bytes_of "a+b+A").
Proof. split; reflexivity. Qed.

Example hex_decode_examples :
  hex_decode (bytes_of "abc") = Err InvalidLength
  /\ hex_decode (bytes_of "1g") = Err InvalidCharacter
  /\ hex_decode (bytes_of "00fF") = Ok [x00; xff].
Proof. repeat split; reflexivity. Qed.

Example zero_one_two_runs :
  zero_one_encode [x00; x00; xff; xff; xff] = Ok [x00; x02; xff; x03]
  /\ zero_one_decode [x00; x02; xff; x03] = Ok [x00; x00; xff; xff; xff].
Proof. split; vm_compute; reflexivity. Qed.

Example zero_decode_trailing_sentinel :
  zero_decode [x05; x00] = Ok [x05; x00]
  /\ zero_decode [x00; x00] = Ok [].
Proof. split; vm_compute; reflexivity. Qed.

(* ===================================================================== *)
(** * Further properties of the same code *)

(** ** [implode], [lpad] and [rpad] *)

Lemma implode_list_cons (x : list byte) (rest : list (list byte)) (d : byte) :
  implode_list (x :: rest) d = x ++ delimited rest d.
Proof.
  revert x. induction rest as [|y rest IH]; intros x.
  - cbn. now rewrite app_nil_r.
  - cbn [implode_list delimited] in *. now rewrite IH.
Qed.

Lemma implode_loop_spec (v : list (list byte)) (d : byte) :
  forall fuel i res,
    i <= length v -> length v - i <= fuel ->
    implode_loop fuel v d i res
    = Ok (res ++ (if i =? 0 then implode_list v d else delimited (drop i v) d)).
Proof.
  assert (Done : forall fuel i res, length v <= i -> i <= length v ->
            implode_loop fuel v d i res
            = Ok (res ++ (if i =? 0 then implode_list v d else delimited (drop i v) d))).
  { intros fuel i res Hge Hle.
    assert (Hnil : (if i =? 0 then implode_list v d else delimited (drop i v) d) = []).
    { destruct (Nat.eqb_spec i 0) as [->|_].
      - destruct v; [reflexivity|cbn [length] in Hge; lia].
      - now rewrite drop_ge. }
    rewrite Hnil, app_nil_r.
    destruct fuel; cbn [implode_loop];
      destruct (Nat.ltb_spec i (length v)); reflexivity || lia. }
  intros fuel. induction fuel as [|fuel IH]; intros i res Hi Hf.
  - apply Done; lia.
  - destruct (Nat.lt_ge_cases i (length v)) as [Hlt|Hge]; [|now apply Done].
    cbn [implode_loop]. destruct (Nat.ltb_spec i (length v)); [|lia]. cbn [negb].
    destruct (lookup_lt_is_Some_2 v i Hlt) as [x Hx]. rewrite Hx.
    rewrite IH by lia.
    destruct (Nat.eqb_spec (i + 1) 0); [lia|].
    replace (i + 1) with (S i) by lia.
    destruct (Nat.eqb_spec i 0) as [->|Hne]; cbn [negb].
    + destruct v as [|y v']; [discriminate|]. injection Hx as ->.
      rewrite implode_list_cons. cbn [drop]. now rewrite drop_0, <- app_assoc.
    + rewrite (drop_S v x i Hx). cbn [delimited].
      rewrite <- !app_assoc. reflexivity.
Qed.

Lemma implode_spec (v : list (list byte)) (d : byte) :
  implode v d = Ok (implode_list v d).
Proof. unfold implode. now rewrite implode_loop_spec by lia. Qed.

Lemma delimited_app (v w : list (list byte)) (d : byte) :
  delimited (v ++ w) d = delimited v d ++ delimited w d.
Proof.
  induction v as [|x v IH]; [reflexivity|].
  cbn [app delimited]. rewrite IH. now rewrite <- app_assoc.
Qed.

Lemma delimited_length (v : list (list byte)) (d : byte) :
  length (delimited v d) = total_length v + length v.
Proof.
  induction v as [|x v IH]; [reflexivity|].
  cbn [delimited total_length length]. rewrite length_app, IH. lia.
Qed.

Lemma count_if_char_absent (d : byte) (x : list byte) :
  d ∉ x -> count_if (char_eq d) x = 0.
Proof.
  induction x as [|c x IH]; intros H; [reflexivity|].
  cbn [count_if]. rewrite not_elem_of_cons in H. destruct H as [Hne Hx].
  destruct (char_eq d c) eqn:E; [apply char_eq_true in E; congruence|].
  now rewrite IH.
Qed.

Lemma delimited_count (v : list (list byte)) (d : byte) :
  Forall (fun x => d ∉ x) v -> count_if (char_eq d) (delimited v d) = length v.
Proof.
  induction 1 as [|x v Hx _ IH]; [reflexivity|].
  cbn [delimited count_if length].
  rewrite char_eq_refl, count_if_app, (count_if_char_absent d x Hx), IH. lia.
Qed.

(** X1: [implode] joins in order: adding an element at the end appends the
    delimiter and the element, except that the first element gets no
    delimiter; the empty vector gives the empty string. *)
Theorem implode_snoc (v : list (list byte)) (x : list byte) (d : byte) :
  implode [] d = Ok []
  /\ exists r,
       implode v d = Ok r
       /\ implode (v ++ [x]) d = Ok (match v with [] => x | _ :: _ => r ++ d :: x end).
Proof.
  split; [reflexivity|].
  exists (implode_list v d). split; [apply implode_spec|].
  rewrite implode_spec. f_equal.
  destruct v as [|y v]; [reflexivity|].
  rewrite <- app_comm_cons, !implode_list_cons, delimited_app.
  cbn [delimited]. now rewrite app_nil_r, <- app_assoc.
Qed.

(** X2: the result of [implode] has the lengths of the elements plus one
    delimiter between neighbours, and when the delimiter occurs in no element
    it occurs in the result once less than there are elements. *)
Theorem implode_length (v : list (list byte)) (d : byte) :
  exists r,
    implode v d = Ok r
    /\ length r = total_length v + (length v - 1)
    /\ (Forall (fun x => d ∉ x) v -> count_if (char_eq d) r = length v - 1).
Proof.
  exists (implode_list v d). split; [apply implode_spec|].
  destruct v as [|x v]; [split; [reflexivity|intros _; reflexivity]|].
  rewrite implode_list_cons. split.
  - rewrite length_app, delimited_length. cbn [total_length length]. lia.
  - intros H. inversion H as [|? ? Hx Hv]; subst.
    rewrite count_if_app, (count_if_char_absent d x Hx), (delimited_count v d Hv).
    cbn [length]. lia.
Qed.

Lemma lpad_eq (str : list byte) (n : nat) (c : byte) :
  lpad str n c = replicate (n - length str) c ++ str.
Proof.
  unfold lpad. destruct (Nat.leb_spec n (length str)) as [H|H]; [|reflexivity].
  replace (n - length str) with 0 by lia. reflexivity.
Qed.

Lemma rpad_eq (str : list byte) (n : nat) (c : byte) :
  rpad str n c = str ++ replicate (n - length str) c.
Proof.
  unfold rpad. destruct (Nat.leb_spec n (length str)) as [H|H]; [|reflexivity].
  replace (n - length str) with 0 by lia. cbn [replicate]. now rewrite app_nil_r.
Qed.

(** X3: [lpad] never shortens: the result is [str] behind copies of [c], as
    long as the larger of the two lengths; padding twice is padding once to
    the larger width; [lpad0] is [lpad] with the digit zero. *)
Theorem lpad_width (str : list byte) (n m : nat) (c : byte) :
  length (lpad str n c) = Nat.max (length str) n
  /\ lpad str n c = replicate (Nat.max (length str) n - length str) c ++ str
  /\ (n <= length str -> lpad str n c = str)
  /\ lpad (lpad str n c) m c = lpad str (Nat.max n m) c
  /\ lpad0 str n = replicate (Nat.max (length str) n - length str) "0"%byte ++ str.
Proof.
  assert (E : Nat.max (length str) n - length str = n - length str) by lia.
  split; [|split; [|split; [|split]]].
  - rewrite lpad_eq, length_app, length_replicate. lia.
  - rewrite E. apply lpad_eq.
  - intros H. rewrite lpad_eq. replace (n - length str) with 0 by lia. reflexivity.
  - rewrite !lpad_eq, length_app, length_replicate, app_assoc, <- replicate_add.
    f_equal. f_equal. lia.
  - unfold lpad0. rewrite E. apply lpad_eq.
Qed.

(** X4: [rpad] never shortens: the result is [str] followed by copies of [c],
    as long as the larger of the two lengths; padding twice is padding once to
    the larger width; and it is [lpad] read backwards. *)
Theorem rpad_width (str : list byte) (n m : nat) (c : byte) :
  length (rpad str n c) = Nat.max (length str) n
  /\ rpad str n c = str ++ replicate (Nat.max (length str) n - length str) c
  /\ (n <= length str -> rpad str n c = str)
  /\ rpad (rpad str n c) m c = rpad str (Nat.max n m) c
  /\ rpad str n c = reverse (lpad (reverse str) n c).
Proof.
  assert (E : Nat.max (length str) n - length str = n - length str) by lia.
  split; [|split; [|split; [|split]]].
  - rewrite rpad_eq, length_app, length_replicate. lia.
  - rewrite E. apply rpad_eq.
  - intros H. rewrite rpad_eq. replace (n - length str) with 0 by lia.
    cbn [replicate]. now rewrite app_nil_r.
  - rewrite !rpad_eq, length_app, length_replicate, <- app_assoc, <- replicate_add.
    f_equal. f_equal. lia.
  - rewrite rpad_eq, lpad_eq, reverse_app, reverse_involutive, length_reverse.
    now rewrite reverse_replicate.
Qed.

(** ** [oneline] *)

Lemma oneline_trim_spec :
  forall fuel result,
    length result <= fuel ->
    exists r k,
      oneline_trim fuel result = Ok r
      /\ result = r ++ replicate k " "%byte
      /\ last r <> Some " "%byte.
Proof.
  intros fuel. induction fuel as [|fuel IH]; intros result Hf.
  - destruct result; [|cbn [length] in Hf; lia].
    exists [], 0. repeat split. discriminate.
  - destruct result as [|c result _] using rev_ind.
    + exists [], 0. repeat split. discriminate.
    + cbn [oneline_trim]. rewrite last_snoc.
      destruct (char_eq c " ") eqn:Ec; cbn [negb].
      * apply char_eq_true in Ec. subst c. rewrite removelast_last.
        destruct (IH result) as (r & k & Hr & Hres & Hlast).
        { rewrite length_app in Hf. cbn [length] in Hf. lia. }
        exists r, (S k). split; [assumption|]. split; [|assumption].
        rewrite replicate_S_end, app_assoc. now rewrite <- Hres.
      * exists (result ++ [c]), 0. split; [reflexivity|].
        split; [cbn [replicate]; now rewrite app_nil_r|].
        rewrite last_snoc. intros [= ->]. rewrite char_eq_refl in Ec. discriminate.
Qed.

Lemma oneline_step_inv (st : list byte * bool) (c : byte) :
  Forall (fun b => is_line_break b = false) st.1 ->
  (st.1 = [] -> st.2 = true) ->
  head st.1 <> Some " "%byte ->
  Forall (fun b => is_line_break b = false) (oneline_step st c).1
  /\ ((oneline_step st c).1 = [] -> (oneline_step st c).2 = true)
  /\ head (oneline_step st c).1 <> Some " "%byte
  /\ length (oneline_step st c).1 <= length st.1 + 1.
Proof.
  destruct st as [result anl]. cbn [fst snd]. intros Hnl Hempty Hhead.
  assert (Snoc : forall x, is_line_break x = false ->
            (result = [] -> x <> " "%byte) ->
            Forall (fun b => is_line_break b = false) (result ++ [x])
            /\ head (result ++ [x]) <> Some " "%byte
            /\ result ++ [x] <> []).
  { intros x Hx Hsp. split; [|split].
    - apply Forall_app. split; [assumption|]. now repeat constructor.
    - destruct result as [|y result]; [|exact Hhead].
      cbn. intros [= ->]. now apply Hsp.
    - destruct result; discriminate. }
  unfold oneline_step.
  destruct (negb (char_eq c x0a) && negb (char_eq c x0d)) eqn:Ebr.
  - assert (Hc : is_line_break c = false).
    { unfold is_line_break. apply andb_true_iff in Ebr as [E1 E2].
      apply negb_true_iff in E1, E2. now rewrite E1, E2. }
    destruct anl.
    + destruct (char_eq c " ") eqn:Esp; cbn [fst snd].
      * repeat split; auto; lia.
      * destruct (Snoc c Hc) as (S1 & S2 & S3).
        { intros _ ->. rewrite char_eq_refl in Esp. discriminate. }
        rewrite length_app. cbn [length]. repeat split; auto; try lia; try congruence.
    + cbn [fst snd].
      destruct (Snoc c Hc) as (S1 & S2 & S3).
      { intros E. specialize (Hempty E). discriminate. }
      rewrite length_app. cbn [length]. repeat split; auto; try lia; try congruence.
  - destruct anl; cbn [negb fst snd].
    + repeat split; auto; lia.
    + destruct (Snoc " "%byte) as (S1 & S2 & S3); [reflexivity| |].
      { intros E. specialize (Hempty E). discriminate. }
      rewrite length_app. cbn [length]. repeat split; auto; lia.
Qed.

Lemma oneline_fold_inv (str : list byte) :
  forall st,
    Forall (fun b => is_line_break b = false) st.1 ->
    (st.1 = [] -> st.2 = true) ->
    head st.1 <> Some " "%byte ->
    Forall (fun b => is_line_break b = false) (fold_left oneline_step str st).1
    /\ head (fold_left oneline_step str st).1 <> Some " "%byte
    /\ length (fold_left oneline_step str st).1 <= length st.1 + length str.
Proof.
  induction str as [|c str IH]; intros st H1 H2 H3; cbn [fold_left length].
  - repeat split; auto; lia.
  - destruct (oneline_step_inv st c H1 H2 H3) as (I1 & I2 & I3 & I4).
    destruct (IH (oneline_step st c) I1 I2 I3) as (J1 & J2 & J3).
    repeat split; auto; lia.
Qed.

Lemma oneline_fold_plain (str : list byte) :
  Forall (fun b => is_line_break b = false) str ->
  forall result,
    fold_left oneline_step str (result, false) = (result ++ str, false).
Proof.
  induction 1 as [|c str Hc _ IH]; intros result; cbn [fold_left].
  - now rewrite app_nil_r.
  - unfold oneline_step at 2. unfold is_line_break in Hc.
    apply orb_false_iff in Hc as [-> ->]. cbn [negb andb].
    rewrite IH. now rewrite <- app_assoc.
Qed.

Lemma oneline_result (str : list byte) :
  exists r,
    oneline str = Ok r
    /\ Forall (fun b => is_line_break b = false) r
    /\ head r <> Some " "%byte
    /\ last r <> Some " "%byte
    /\ length r <= length str.
Proof.
  unfold oneline.
  destruct (oneline_fold_inv str ([], true)) as (H1 & H2 & H3);
    [constructor|reflexivity|discriminate|].
  destruct (fold_left oneline_step str ([], true)) as [result anl]. cbn [fst] in *.
  destruct (oneline_trim_spec (length result) result) as (r & k & Hr & Hres & Hlast); [lia|].
  exists r. split; [assumption|]. subst result.
  apply Forall_app in H1 as [H1 _]. rewrite length_app in H3. cbn [length] in H3.
  split; [assumption|]. split; [|split; [assumption|lia]].
  destruct r as [|x r]; [discriminate|]. exact H2.
Qed.

(** X5: the result of [oneline] holds no line feed and no carriage return,
    neither begins nor ends with a space, and is never longer than the
    input. *)
Theorem oneline_shape (str : list byte) :
  exists r,
    oneline str = Ok r
    /\ Forall (fun b => is_line_break b = false) r
    /\ head r <> Some " "%byte
    /\ last r <> Some " "%byte
    /\ length r <= length str.
Proof. apply oneline_result. Qed.

(** X6: a string without line breaks that neither begins nor ends with a
    space is returned unchanged by [oneline]; so [oneline] applied to its own
    result changes nothing. *)
Theorem oneline_idempotent (str : list byte) :
  (Forall (fun b => is_line_break b = false) str ->
   head str <> Some " "%byte -> last str <> Some " "%byte ->
   oneline str = Ok str)
  /\ exists r, oneline str = Ok r /\ oneline r = Ok r.
Proof.
  assert (Fixed : forall s,
    Forall (fun b => is_line_break b = false) s ->
    head s <> Some " "%byte -> last s <> Some " "%byte -> oneline s = Ok s).
  { intros s Hnl Hhead Hlast. unfold oneline.
    destruct s as [|c s]; [reflexivity|].
    inversion Hnl as [|? ? Hc Hs]; subst.
    cbn [fold_left]. unfold oneline_step at 2.
    unfold is_line_break in Hc. apply orb_false_iff in Hc as [-> ->]. cbn [negb andb].
    destruct (char_eq c " ") eqn:Esp.
    { apply char_eq_true in Esp. subst c. now contradiction Hhead. }
    rewrite (oneline_fold_plain s Hs). cbn [app].
    destruct (oneline_trim_spec (length (c :: s)) (c :: s)) as (r & k & Hr & Hres & Hl);
      [lia|].
    rewrite Hr. f_equal. destruct k as [|k].
    - cbn [replicate] in Hres. now rewrite app_nil_r in Hres.
    - exfalso. apply Hlast. rewrite Hres, replicate_S_end, app_assoc. apply last_snoc. }
  split; [apply Fixed|].
  destruct (oneline_result str) as (r & Hr & H1 & H2 & H3 & _).
  exists r. split; [assumption|]. now apply Fixed.
Qed.

(** ** Hex codec: letter case and composition *)

Lemma hex_to_int_case (c : byte) :
  hex_to_int (to_upper c) = hex_to_int c /\ hex_to_int (to_lower c) = hex_to_int c.
Proof. by_byte_cases c. Qed.

Lemma hex_pairs_map (g : byte -> byte) (hex : list byte) :
  (forall c, hex_to_int (g c) = hex_to_int c) ->
  hex_pairs (map g hex) = hex_pairs hex.
Proof.
  intros Hg. induction hex as [|a|a b l IH] using pair_induction; try reflexivity.
  cbn [map hex_pairs]. unfold hex_pair. now rewrite !Hg, IH.
Qed.

Lemma hex_decode_map (g : byte -> byte) (hex : list byte) :
  (forall c, hex_to_int (g c) = hex_to_int c) ->
  hex_decode (map g hex) = hex_decode hex.
Proof.
  intros Hg. rewrite !hex_decode_spec, length_map. now rewrite hex_pairs_map.
Qed.

(** X7: [hex_decode] does not distinguish upper from lower case: changing
    the case of the input changes neither the bytes it returns nor the error
    it reports. *)
Theorem hex_decode_case_insensitive (hex : list byte) :
  hex_decode (map to_upper hex) = hex_decode hex
  /\ hex_decode (map to_lower hex) = hex_decode hex.
Proof. split; apply hex_decode_map; intros c; apply hex_to_int_case. Qed.

Lemma hex_lower_of_value (c : byte) :
  is_hex_char c = true -> digit_of hex_lower (hex_to_int c) = to_lower c.
Proof. destruct c; intros H; first [reflexivity | discriminate H]. Qed.

Lemma hex_upper_of_value (c : byte) :
  is_upper_hex_char c = true -> digit_of hex_upper (hex_to_int c) = c.
Proof. destruct c; intros H; first [reflexivity | discriminate H]. Qed.

Lemma upper_hex_is_hex (c : byte) : is_upper_hex_char c = true -> is_hex_char c = true.
Proof. destruct c; intros H; first [reflexivity | discriminate H]. Qed.

Lemma hex_pair_nibbles (c1 c2 : byte) :
  is_hex_char c1 = true -> is_hex_char c2 = true ->
  u8 (hex_pair c1 c2) / 16 = hex_to_int c1 /\ u8 (hex_pair c1 c2) mod 16 = hex_to_int c2.
Proof.
  intros H1 H2. rewrite <- hex_to_int_lt_16 in H1, H2.
  apply Nat.ltb_lt in H1, H2. unfold hex_pair.
  rewrite u8_byte_of_nat by lia. split.
  - rewrite Nat.div_add_l by lia. rewrite Nat.div_small by lia. lia.
  - rewrite Nat.add_comm, Nat.Div0.mod_add. now apply Nat.mod_small.
Qed.

Lemma hex_pairs_reencode (hex r : list byte) :
  length hex mod 2 = 0 -> hex_pairs hex = Some r -> hex_encode_list r = map to_lower hex.
Proof.
  revert r. induction hex as [|a|a b l IH] using pair_induction; intros r He Hr.
  - injection Hr as <-. reflexivity.
  - discriminate.
  - cbn [length] in He. rewrite mod2_SS in He. cbn [hex_pairs] in Hr.
    rewrite !hex_to_int_16 in Hr.
    destruct (is_hex_char a) eqn:Ea; [|discriminate].
    destruct (is_hex_char b) eqn:Eb; [|discriminate]. cbn [negb orb] in Hr.
    destruct (hex_pairs l) as [d|]; [|discriminate]. injection Hr as <-.
    cbn [hex_encode_list map].
    destruct (hex_pair_nibbles a b Ea Eb) as [-> ->].
    rewrite !hex_lower_of_value by assumption. now rewrite (IH d He eq_refl).
Qed.

(** X8: when [hex_decode] succeeds, [hex_encode] of its result is the input
    in lower case. *)
Theorem hex_encode_decode (hex r : list byte) :
  hex_decode hex = Ok r -> hex_encode r = Ok (map to_lower hex).
Proof.
  rewrite hex_decode_spec, hex_encode_spec.
  destruct (Nat.eqb_spec (length hex mod 2) 0) as [He|]; [|discriminate]. cbn [negb].
  destruct (hex_pairs hex) as [d|] eqn:Ep; [|discriminate].
  intros [= <-]. f_equal. now apply hex_pairs_reencode.
Qed.

Lemma hex_encode_list_app (a b : list byte) :
  hex_encode_list (a ++ b) = hex_encode_list a ++ hex_encode_list b.
Proof. induction a as [|c a IH]; [reflexivity|]. cbn [app hex_encode_list]. now rewrite IH. Qed.

Lemma buffer_to_hex_list_app (a b : list byte) :
  buffer_to_hex_list (a ++ b) = buffer_to_hex_list a ++ buffer_to_hex_list b.
Proof. induction a as [|c a IH]; [reflexivity|]. cbn [app buffer_to_hex_list]. now rewrite IH. Qed.

Lemma url_encode_list_app (a b : list byte) :
  url_encode_list (a ++ b) = url_encode_list a ++ url_encode_list b.
Proof.
  induction a as [|c a IH]; [reflexivity|]. cbn [app url_encode_list].
  destruct (is_url_char c); now rewrite IH.
Qed.

(** X9: the three encoders work byte by byte: the encoding of a
    concatenation is the concatenation of the encodings, for [hex_encode],
    [buffer_to_hex] and [url_encode]. *)
Theorem encoders_append (a b : list byte) :
  (exists ea eb, hex_encode a = Ok ea /\ hex_encode b = Ok eb
                 /\ hex_encode (a ++ b) = Ok (ea ++ eb))
  /\ (exists ea eb, buffer_to_hex a = Ok ea /\ buffer_to_hex b = Ok eb
                    /\ buffer_to_hex (a ++ b) = Ok (ea ++ eb))
  /\ (exists ea eb, url_encode a = Ok ea /\ url_encode b = Ok eb
                    /\ url_encode (a ++ b) = Ok (ea ++ eb)).
Proof.
  split; [|split]; eexists; eexists.
  - rewrite !hex_encode_spec, hex_encode_list_app. auto.
  - rewrite !buffer_to_hex_spec, buffer_to_hex_list_app. auto.
  - rewrite !url_encode_spec, url_encode_list_app. auto.
Qed.

(** ** Percent codec: the format of the encoder *)

(** X10: the plus-sign rule does not affect what [url_encode] produced:
    [url_decode (url_encode b) true] is [b] as well. *)
Theorem url_roundtrip_plus (b : list byte) :
  exists e, url_encode b = Ok e /\ url_decode e true = Ok b.
Proof.
  exists (url_encode_list b). split; [apply url_encode_spec|].
  now rewrite url_decode_spec, url_decode_encode_list.
Qed.

Lemma url_encode_list_format (data : list byte) : percent_encoded (url_encode_list data).
Proof.
  induction data as [|c data IH]; cbn [url_encode_list]; [constructor|].
  destruct (is_url_char c) eqn:E.
  - now apply percent_plain.
  - destruct (hex_upper_chars c) as [H1 H2].
    apply percent_escape; try assumption. now rewrite hex_pair_upper.
Qed.

Lemma upper_hex_is_url_char (c : byte) : is_upper_hex_char c = true -> is_url_char c = true.
Proof. destruct c; intros H; first [reflexivity | discriminate H]. Qed.

Lemma percent_encoded_alphabet (e : list byte) :
  percent_encoded e -> Forall (fun c => is_url_char c || char_eq c "%" = true) e.
Proof.
  induction 1 as [|c rest Hc _ IH|h l rest Hh Hl _ _ IH].
  - constructor.
  - constructor; [now rewrite Hc|assumption].
  - constructor; [reflexivity|].
    constructor; [now rewrite (upper_hex_is_url_char h Hh)|].
    constructor; [now rewrite (upper_hex_is_url_char l Hl)|assumption].
Qed.

(** X11: the output of [url_encode] is made of unreserved bytes and of [%]
    followed by two uppercase hex digits, an escape standing only for a byte
    that is not unreserved; so every byte of it is unreserved or [%]. *)
Theorem url_encode_format (b : list byte) :
  exists e,
    url_encode b = Ok e
    /\ percent_encoded e
    /\ Forall (fun c => is_url_char c || char_eq c "%" = true) e.
Proof.
  exists (url_encode_list b). split; [apply url_encode_spec|].
  split; [apply url_encode_list_format|].
  apply percent_encoded_alphabet, url_encode_list_format.
Qed.

Lemma url_encode_list_decode (e : list byte) :
  percent_encoded e -> url_encode_list (url_decode_list false e) = e.
Proof.
  induction 1 as [|c rest Hc _ IH|h l rest Hh Hl Hp _ IH].
  - reflexivity.
  - rewrite url_decode_list_literal
      by (rewrite (is_url_char_not_percent c Hc); reflexivity).
    unfold plus_or_self. cbn [andb url_encode_list]. now rewrite Hc, IH.
  - rewrite url_decode_list_escape by (now apply upper_hex_is_hex).
    cbn [url_encode_list]. rewrite Hp.
    destruct (hex_pair_nibbles h l (upper_hex_is_hex h Hh) (upper_hex_is_hex l Hl))
      as [-> ->].
    now rewrite !hex_upper_of_value, IH by assumption.
Qed.

(** X12: on a string in the format of the encoder, decoding and encoding
    again gives the string back: [url_encode (url_decode e false) = e]. *)
Theorem url_encode_decode (e : list byte) :
  percent_encoded e ->
  exists b, url_decode e false = Ok b /\ url_encode b = Ok e.
Proof.
  intros H. exists (url_decode_list false e). split; [apply url_decode_spec|].
  rewrite url_encode_spec. f_equal. now apply url_encode_list_decode.
Qed.

Lemma url_encode_list_fixed (b : list byte) :
  url_encode_list b = b <-> Forall (fun c => is_url_char c = true) b.
Proof.
  split.
  - intros H. apply (f_equal length) in H.
    pose proof (url_encode_list_length b) as Hl. rewrite H in Hl.
    assert (Hk : count_unreserved b = length b) by lia. clear H Hl.
    induction b as [|c b IH]; [constructor|].
    cbn [count_unreserved length] in Hk. pose proof (count_unreserved_le b).
    destruct (is_url_char c) eqn:E; [|lia].
    constructor; [assumption|apply IH; lia].
  - induction 1 as [|c b Hc _ IH]; [reflexivity|].
    cbn [url_encode_list]. now rewrite Hc, IH.
Qed.

(** X13: [url_encode] returns its input unchanged exactly when every byte of
    the input is unreserved. *)
Theorem url_encode_unchanged_iff (b : list byte) :
  url_encode b = Ok b <-> Forall (fun c => is_url_char c = true) b.
Proof.
  rewrite url_encode_spec, <- url_encode_list_fixed.
  split; [now intros [= ->]|now intros ->].
Qed.

Lemma url_decode_list_no_percent (plus : bool) (s : list byte) :
  Forall (fun c => char_eq c "%" = false) s ->
  url_decode_list plus s = map (plus_or_self plus) s.
Proof.
  induction 1 as [|c s Hc _ IH]; [reflexivity|].
  rewrite url_decode_list_literal by (now rewrite Hc). cbn [map]. now rewrite IH.
Qed.

(** X14: on an input without [%], [url_decode] keeps the length: it returns
    the input unchanged without the plus-sign rule, and with it the input
    with every [+] replaced by a space. *)
Theorem url_decode_no_percent (s : list byte) (decode_plus_sign_as_space : bool) :
  Forall (fun c => char_eq c "%" = false) s ->
  url_decode s false = Ok s
  /\ url_decode s decode_plus_sign_as_space
     = Ok (map (fun c => if decode_plus_sign_as_space && char_eq c "+" then " "%byte else c) s).
Proof.
  intros H. rewrite !url_decode_spec, !url_decode_list_no_percent by assumption.
  split; [|reflexivity]. f_equal. clear H.
  induction s as [|c s IH]; [reflexivity|]. cbn [map]. now rewrite IH.
Qed.

(** ** Percent codec: what the decoding loop leaves untouched *)

Lemma url_decode_body_writes (from to : Slice) (plus : bool) (st : cursor) :
  decode_bounds from to st -> from_i st < size from ->
  exists st' x,
    url_decode_body from to plus (size from) st = Ok st'
    /\ decode_bounds from to st'
    /\ from_i st < from_i st'
    /\ to_i st' = to_i st + 1
    /\ mem st' = <[ptr to + to_i st := x]> (mem st).
Proof.
  intros (H1 & H2 & H3 & H4) Hlt.
  assert (Literal : exists st' x,
    url_decode_literal from to plus st = Ok st'
    /\ decode_bounds from to st' /\ from_i st < from_i st' /\ to_i st' = to_i st + 1
    /\ mem st' = <[ptr to + to_i st := x]> (mem st)).
  { unfold url_decode_literal.
    destruct (load_inside (mem st) from (from_i st)) as [c ->]; [lia|lia|]. cbn [bind].
    rewrite write_inside by lia. cbn [bind]. eexists. eexists. split; [reflexivity|].
    unfold decode_bounds. cbn [from_i to_i mem]. rewrite length_insert.
    repeat split; lia. }
  unfold url_decode_body.
  destruct (load_inside (mem st) from (from_i st)) as [c ->]; [lia|lia|]. cbn [bind].
  destruct (char_eq c "%"); cbn [andb]; [|exact Literal].
  destruct (Nat.ltb_spec (from_i st + 2) (size from)); [|exact Literal].
  destruct (load_inside (mem st) from (from_i st + 1)) as [c1 ->]; [lia|lia|].
  destruct (load_inside (mem st) from (from_i st + 2)) as [c2 ->]; [lia|lia|].
  cbn [bind].
  destruct ((hex_to_int c1 <? 16) && (hex_to_int c2 <? 16)); [|exact Literal].
  rewrite write_inside by lia. cbn [bind]. eexists. eexists. split; [reflexivity|].
  unfold decode_bounds. cbn [from_i to_i mem]. rewrite length_insert.
  repeat split; lia.
Qed.

Lemma url_decode_loop_frame (from to : Slice) (plus : bool) :
  forall fuel st,
    decode_bounds from to st ->
    size from - from_i st <= fuel ->
    exists st',
      url_decode_loop fuel from to plus (size from) st = Ok st'
      /\ to_i st <= to_i st'
      /\ to_i st' + from_i st <= to_i st + size from
      /\ length (mem st') = length (mem st)
      /\ forall a, a < ptr to + to_i st \/ ptr to + to_i st' <= a ->
                   mem st' !! a = mem st !! a.
Proof.
  intros fuel. induction fuel as [|fuel IH]; intros st Hb Hf; pose proof Hb as (H1 & _).
  - exists st. cbn [url_decode_loop].
    destruct (Nat.ltb_spec (from_i st) (size from)); [lia|]. cbn [negb].
    repeat split; auto; lia.
  - cbn [url_decode_loop].
    destruct (Nat.ltb_spec (from_i st) (size from)) as [Hlt|Hge]; cbn [negb].
    2:{ exists st. repeat split; auto; lia. }
    destruct (url_decode_body_writes from to plus st Hb Hlt)
      as (st1 & x & -> & Hb1 & Hadv & Hto & Hmem).
    cbn [bind].
    destruct (IH st1 Hb1) as (st' & Hl & Hle & Hn & Hlen & Hframe); [lia|].
    exists st'. split; [assumption|]. split; [lia|]. split; [lia|].
    split; [rewrite Hlen, Hmem; apply length_insert|].
    intros a Ha. rewrite Hframe by lia. rewrite Hmem.
    apply list_lookup_insert_ne. lia.
Qed.

(** X15: the into-buffer [url_decode], given views inside the store and a
    destination at least as large as the source, returns a count [k] of at
    most the source size, keeps the size of the store, and changes no byte
    outside the first [k] bytes of the destination. *)
Theorem url_decode_to_frame (from to : Slice) (decode_plus_sign_as_space : bool) (m : store) :
  size from <= size to ->
  ptr from + size from <= length m ->
  ptr to + size to <= length m ->
  exists k m',
    url_decode_to from to decode_plus_sign_as_space m = Ok (k, m')
    /\ k <= size from
    /\ length m' = length m
    /\ forall a, a < ptr to \/ ptr to + k <= a -> m' !! a = m !! a.
Proof.
  intros Hs Hf Ht. unfold url_decode_to.
  destruct (Nat.leb_spec (size from) (size to)); [|lia]. cbn [negb].
  destruct (url_decode_loop_frame from to decode_plus_sign_as_space (size from)
              {| from_i := 0; to_i := 0; mem := m |})
    as (st' & -> & Hle & Hn & Hlen & Hframe); [unfold decode_bounds; cbn; lia|cbn; lia|].
  cbn [bind from_i to_i mem] in *. exists (to_i st'), (mem st').
  split; [reflexivity|]. split; [lia|]. split; [assumption|].
  intros a Ha. apply Hframe. lia.
Qed.

(** X16: [url_decode_inplace] on a view inside the store keeps the size of
    the store and the start of the view, does not lengthen the view, and
    changes no byte of the store outside the truncated view. *)
Theorem url_decode_inplace_frame (str : Slice) (decode_plus_sign_as_space : bool) (m : store) :
  ptr str + size str <= length m ->
  exists str' m',
    url_decode_inplace str decode_plus_sign_as_space m = Ok (str', m')
    /\ ptr str' = ptr str
    /\ size str' <= size str
    /\ length m' = length m
    /\ forall a, a < ptr str' \/ ptr str' + size str' <= a -> m' !! a = m !! a.
Proof.
  intros Hv. unfold url_decode_inplace, url_decode_to.
  destruct (Nat.leb_spec (size str) (size str)); [|lia]. cbn [negb].
  destruct (url_decode_loop_frame str str decode_plus_sign_as_space (size str)
              {| from_i := 0; to_i := 0; mem := m |})
    as (st' & -> & Hle & Hn & Hlen & Hframe); [unfold decode_bounds; cbn; lia|cbn; lia|].
  cbn [bind from_i to_i mem] in *. exists (truncate str (to_i st')), (mem st').
  unfold truncate. cbn [ptr size].
  split; [reflexivity|]. split; [reflexivity|]. split; [lia|]. split; [assumption|].
  intros a Ha. apply Hframe. lia.
Qed.

(** ** Run codecs: sizes, plain data and greedy runs *)

Section RunExtras.
Variable f : byte -> bool.

Lemma encoded_form_bounds (e : list byte) :
  encoded_form f e ->
  length e <= 2 * length (x_decode_list f e)
  /\ length (x_decode_list f e) <= 125 * length e.
Proof.
  induction 1 as [|c rest Hc _ IH|c k rest Hc Hk _ IH].
  - cbn. lia.
  - rewrite x_decode_list_literal by assumption. cbn [length]. lia.
  - rewrite x_decode_list_run by assumption.
    rewrite length_app, length_replicate. cbn [length]. lia.
Qed.

Lemma x_encode_bounds (b : list byte) :
  exists e, x_encode b f = Ok e /\ length e <= 2 * length b /\ length b <= 125 * length e.
Proof.
  destruct (x_encode_spec f b) as (e & He & Hdec & Hform).
  exists e. split; [assumption|]. rewrite <- Hdec. now apply encoded_form_bounds.
Qed.

Lemma x_decode_list_plain (s : list byte) :
  Forall (fun c => f c = false) s -> x_decode_list f s = s.
Proof.
  induction 1 as [|c s Hc _ IH]; [reflexivity|].
  rewrite x_decode_list_literal by assumption. now rewrite IH.
Qed.

Lemma encoded_form_plain (e : list byte) :
  encoded_form f e ->
  Forall (fun c => f c = false) (x_decode_list f e) -> x_decode_list f e = e.
Proof.
  induction 1 as [|c rest Hc _ IH|c k rest Hc Hk _ IH]; intros Hall.
  - reflexivity.
  - rewrite x_decode_list_literal in * by assumption.
    apply Forall_cons in Hall as [_ Hall]. f_equal. now apply IH.
  - exfalso. rewrite x_decode_list_run in Hall by assumption.
    destruct (u8 k) as [|n] eqn:E; [lia|]. cbn [replicate app] in Hall.
    apply Forall_cons in Hall as [Hx _]. congruence.
Qed.

Lemma x_plain (s : list byte) :
  Forall (fun c => f c = false) s -> x_encode s f = Ok s /\ x_decode s f = Ok s.
Proof.
  intros H. split.
  - destruct (x_encode_spec f s) as (e & He & Hdec & Hform).
    rewrite He. f_equal. rewrite <- Hdec in H.
    rewrite <- (encoded_form_plain e Hform H). exact Hdec.
  - rewrite x_decode_spec. f_equal. now apply x_decode_list_plain.
Qed.

Lemma get_app_r (p s : list byte) (i : nat) : get (p ++ s) (length p + i) = get s i.
Proof.
  unfold get. rewrite lookup_app_r by lia.
  now replace (length p + i - length p) with i by lia.
Qed.

Lemma x_encode_count_shift (p s : list byte) (i : nat) :
  forall fuel cnt,
    x_encode_count fuel (p ++ s) (length p + length s) (length p + i) cnt
    = x_encode_count fuel s (length s) i cnt.
Proof.
  intros fuel. induction fuel as [|fuel IH]; intros cnt; cbn [x_encode_count];
    rewrite <- Nat.add_assoc, !get_app_r;
    replace (length p + (i + cnt) <? length p + length s) with (i + cnt <? length s)
      by (destruct (Nat.ltb_spec (i + cnt) (length s));
          destruct (Nat.ltb_spec (length p + (i + cnt)) (length p + length s)); lia || reflexivity).
  - reflexivity.
  - destruct (negb (cnt <? 250)); [reflexivity|].
    destruct (negb (i + cnt <? length s)); [reflexivity|].
    destruct (get s (i + cnt)) as [a|err]; cbn [bind]; [|reflexivity].
    destruct (get s i) as [b|err]; cbn [bind]; [|reflexivity].
    destruct (negb (char_eq a b)); [reflexivity|]. apply IH.
Qed.

Lemma x_encode_loop_shift (p s : list byte) :
  forall fuel i res,
    x_encode_loop fuel f (p ++ s) (length p + length s) (length p + i) res
    = x_encode_loop fuel f s (length s) i res.
Proof.
  intros fuel. induction fuel as [|fuel IH]; intros i res; cbn [x_encode_loop];
    replace (length p + i <? length p + length s) with (i <? length s)
      by (destruct (Nat.ltb_spec i (length s));
          destruct (Nat.ltb_spec (length p + i) (length p + length s)); lia || reflexivity).
  - reflexivity.
  - destruct (i <? length s); cbn [negb]; [|reflexivity].
    rewrite get_app_r. destruct (get s i) as [c|err]; cbn [bind]; [|reflexivity].
    destruct (f c).
    + rewrite x_encode_count_shift.
      destruct (x_encode_count 250 s (length s) i 1) as [cnt|err]; cbn [bind]; [|reflexivity].
      rewrite <- !Nat.add_assoc. apply IH.
    + rewrite <- Nat.add_assoc. apply IH.
Qed.

Lemma x_encode_loop_more_fuel (s : list byte) (n : nat) :
  forall fuel i res r,
    x_encode_loop fuel f s n i res = Ok r -> x_encode_loop (S fuel) f s n i res = Ok r.
Proof.
  intros fuel. induction fuel as [|fuel IH]; intros i res r H.
  - cbn [x_encode_loop] in *. destruct (i <? n); cbn [negb] in *; [discriminate|assumption].
  - remember (S fuel) as fuel1. cbn [x_encode_loop]. subst fuel1.
    cbn [x_encode_loop] in H.
    destruct (i <? n); cbn [negb] in *; [|assumption].
    destruct (get s i) as [c|err]; cbn [bind] in *; [|discriminate].
    destruct (f c).
    + destruct (x_encode_count 250 s n i 1) as [cnt|err]; cbn [bind] in *; [|discriminate].
      now apply IH.
    + now apply IH.
Qed.

Lemma x_encode_loop_fuel_le (s : list byte) (n : nat) (fuel fuel' i : nat) (res r : list byte) :
  fuel <= fuel' ->
  x_encode_loop fuel f s n i res = Ok r -> x_encode_loop fuel' f s n i res = Ok r.
Proof.
  induction 1 as [|fuel' _ IH]; [trivial|].
  intros H. now apply x_encode_loop_more_fuel, IH.
Qed.

Lemma x_encode_loop_acc (s : list byte) (n : nat) :
  forall fuel i res0 e,
    x_encode_loop fuel f s n i res0 = Ok e ->
    forall res, x_encode_loop fuel f s n i (res ++ res0) = Ok (res ++ e).
Proof.
  intros fuel. induction fuel as [|fuel IH]; intros i res0 e H res;
    cbn [x_encode_loop] in *; destruct (i <? n); cbn [negb] in *;
    try discriminate; try (injection H as <-; reflexivity).
  destruct (get s i) as [c|err]; cbn [bind] in *; [|discriminate].
  destruct (f c).
  - destruct (x_encode_count 250 s n i 1) as [cnt|err]; cbn [bind] in *; [|discriminate].
    rewrite <- !app_assoc. rewrite <- !app_assoc in H. now apply IH.
  - rewrite <- !app_assoc. now apply IH.
Qed.

Lemma x_encode_after_prefix (p rest pre e : list byte) (fuel : nat) :
  length rest <= fuel ->
  x_encode rest f = Ok e ->
  x_encode_loop fuel f (p ++ rest) (length (p ++ rest)) (length p) pre = Ok (pre ++ e).
Proof.
  intros Hf He. rewrite length_app.
  rewrite <- (Nat.add_0_r (length p)) at 2. rewrite x_encode_loop_shift.
  rewrite <- (app_nil_r pre) at 1. apply x_encode_loop_acc.
  now apply (x_encode_loop_fuel_le rest (length rest) (length rest) fuel).
Qed.

Lemma x_encode_literal (c : byte) (rest : list byte) :
  f c = false ->
  exists e, x_encode rest f = Ok e /\ x_encode (c :: rest) f = Ok (c :: e).
Proof.
  intros Hc. destruct (x_encode_spec f rest) as (e & He & _).
  exists e. split; [assumption|].
  pose proof (x_encode_after_prefix [c] rest [c] e (length rest) (Nat.le_refl _) He) as H.
  unfold x_encode at 1. cbn [length]. cbn [x_encode_loop].
  destruct (Nat.ltb_spec 0 (S (length rest))); [|lia]. cbn [negb].
  change (get (c :: rest) 0) with (Ok c). cbn [bind]. rewrite Hc. exact H.
Qed.

Lemma x_encode_run (c : byte) (n : nat) (rest : list byte) :
  f c = true -> 1 <= n <= 250 -> n = 250 \/ head rest <> Some c ->
  exists e,
    x_encode rest f = Ok e
    /\ x_encode (replicate n c ++ rest) f = Ok (c :: byte_of_nat n :: e).
Proof.
  intros Hc Hn Hstop. destruct (x_encode_spec f rest) as (e & He & _).
  exists e. split; [assumption|].
  set (s := replicate n c ++ rest).
  assert (Hlen : length s = n + length rest)
    by (unfold s; now rewrite length_app, length_replicate).
  assert (Hrun : forall j, j < n -> s !! j = Some c).
  { intros j Hj. unfold s. rewrite lookup_app_l by (rewrite length_replicate; lia).
    now apply lookup_replicate_2. }
  assert (Hnext : s !! n = head rest).
  { unfold s. rewrite lookup_app_r by (rewrite length_replicate; lia).
    rewrite length_replicate, Nat.sub_diag. now destruct rest. }
  unfold x_encode. destruct (length s) as [|k] eqn:El; [lia|].
  cbn [x_encode_loop]. rewrite <- El.
  destruct (Nat.ltb_spec 0 (length s)); [|lia]. cbn [negb].
  rewrite (get_Some s 0 c) by (apply Hrun; lia). cbn [bind]. rewrite Hc.
  destruct (x_encode_count_spec s 0 c (Hrun 0 ltac:(lia)) 250 1)
    as (cnt & -> & Hb & Hin & Hall & Hmax); try lia.
  { intros j Hj. replace j with 0 by lia. apply Hrun. lia. }
  cbn [bind Nat.add] in *.
  assert (cnt = n).
  { destruct (Nat.lt_trichotomy cnt n) as [Hlt|[Heq|Hgt]]; [exfalso|assumption|exfalso].
    - destruct Hmax as [Hm|[Hm|Hm]]; [lia|lia|]. apply Hm, Hrun. assumption.
    - specialize (Hall n Hgt). rewrite Hnext in Hall.
      destruct Hstop as [Hs|Hs]; [lia|contradiction]. }
  subst cnt. replace (n - 1 + 1) with (length (replicate n c))
    by (rewrite length_replicate; lia).
  apply (x_encode_after_prefix (replicate n c) rest [c; byte_of_nat n] e); [lia|assumption].
Qed.
End RunExtras.

(** X17: the output of [zero_encode] and of [zero_one_encode] is at most
    twice as long as the input, and at least a 125th of it. *)
Theorem run_encode_size (b : list byte) :
  (exists e, zero_encode b = Ok e /\ length e <= 2 * length b /\ length b <= 125 * length e)
  /\ (exists e, zero_one_encode b = Ok e
                /\ length e <= 2 * length b /\ length b <= 125 * length e).
Proof. split; apply x_encode_bounds. Qed.

(** X18: data without a sentinel byte passes through each run codec
    unchanged, in both directions. *)
Theorem run_codecs_plain (s : list byte) :
  (Forall (fun c => is_zero c = false) s ->
   zero_encode s = Ok s /\ zero_decode s = Ok s)
  /\ (Forall (fun c => is_zero_or_one c = false) s ->
      zero_one_encode s = Ok s /\ zero_one_decode s = Ok s).
Proof. split; apply x_plain. Qed.

(** X19: the encoder takes runs greedily: a byte that is no sentinel is
    copied and the rest encoded after it; [n] copies of a sentinel, [n]
    between 1 and 250, that are followed by another byte or the end, or are
    250 in number, become the sentinel and the count [n], and the rest is
    encoded after them. *)
Theorem x_encode_greedy (f : byte -> bool) (c : byte) (n : nat) (rest : list byte) :
  (f c = false ->
   exists e, x_encode rest f = Ok e /\ x_encode (c :: rest) f = Ok (c :: e))
  /\ (f c = true -> 1 <= n <= 250 -> n = 250 \/ head rest <> Some c ->
      exists e, x_encode rest f = Ok e
                /\ x_encode (replicate n c ++ rest) f = Ok (c :: byte_of_nat n :: e)).
Proof. split; [apply x_encode_literal|apply x_encode_run]. Qed.

(** ** Further properties *)

Lemma hex_pairs_app (a b ra rb : list byte) :
  length a mod 2 = 0 -> hex_pairs a = Some ra -> hex_pairs b = Some rb ->
  hex_pairs (a ++ b) = Some (ra ++ rb).
Proof.
  revert ra. induction a as [|x|x y l IH] using pair_induction; intros ra He Ha Hb.
  - injection Ha as <-. exact Hb.
  - discriminate.
  - cbn [length] in He. rewrite mod2_SS in He.
    cbn [app hex_pairs] in *.
    destruct ((hex_to_int x =? 16) || (hex_to_int y =? 16)); [discriminate|].
    destruct (hex_pairs l) as [d|]; [|discriminate]. injection Ha as <-.
    now rewrite (IH d He eq_refl Hb).
Qed.

(** X20: [hex_decode] can be applied piecewise: when it succeeds on two
    strings, it succeeds on their concatenation with the concatenated
    results. *)
Theorem hex_decode_append (a b ra rb : list byte) :
  hex_decode a = Ok ra -> hex_decode b = Ok rb ->
  hex_decode (a ++ b) = Ok (ra ++ rb).
Proof.
  rewrite !hex_decode_spec, length_app.
  destruct (Nat.eqb_spec (length a mod 2) 0) as [Ha|]; [|discriminate].
  destruct (Nat.eqb_spec (length b mod 2) 0) as [Hb|]; [|discriminate].
  cbn [negb].
  destruct (hex_pairs a) as [da|] eqn:Ea; [|discriminate].
  destruct (hex_pairs b) as [db|] eqn:Eb; [|discriminate].
  intros [= <-] [= <-].
  rewrite Nat.Div0.add_mod, Ha, Hb. cbn [Nat.add Nat.modulo Nat.eqb negb].
  change (0 mod 2 =? 0) with true. cbn [negb].
  now rewrite (hex_pairs_app a b da db Ha Ea Eb).
Qed.

Lemma url_decode_list_length_ge (plus : bool) (n : nat) :
  forall s, length s <= n -> length s <= 3 * length (url_decode_list plus s).
Proof.
  induction n as [|n IH]; intros s Hs.
  - destruct s; [cbn; lia|cbn [length] in Hs; lia].
  - destruct s as [|c t]; [cbn; lia|].
    destruct (char_eq c "%" && escape_follows t) eqn:E.
    + apply andb_true_iff in E as [Ec Et].
      destruct t as [|c1 [|c2 t']]; try discriminate.
      apply char_eq_true in Ec as ->. cbn [escape_follows] in Et.
      apply andb_true_iff in Et as [E1 E2]. rewrite hex_to_int_lt_16 in E1, E2.
      rewrite url_decode_list_escape by assumption.
      cbn [length] in *. specialize (IH t'). lia.
    + rewrite url_decode_list_literal by assumption.
      cbn [length] in *. specialize (IH t). lia.
Qed.

(** X21: [url_decode] shrinks its input to no less than a third: the input
    is at most three times as long as the output. *)
Theorem url_decode_length_third (s : list byte) (decode_plus_sign_as_space : bool) :
  exists r, url_decode s decode_plus_sign_as_space = Ok r
            /\ length r <= length s <= 3 * length r.
Proof.
  exists (url_decode_list decode_plus_sign_as_space s). split; [apply url_decode_spec|].
  split; [apply url_decode_list_length|].
  now apply (url_decode_list_length_ge _ (length s)).
Qed.

Lemma text_of_app (a b : list byte) : text_of (a ++ b) = text_of a ++ text_of b.
Proof. apply List.filter_app. Qed.

Lemma text_of_blank (c : byte) : is_blank c = true -> text_of [c] = [].
Proof. intros H. unfold text_of. cbn [List.filter]. now rewrite H. Qed.

Lemma text_of_plain (c : byte) : is_blank c = false -> text_of [c] = [c].
Proof. intros H. unfold text_of. cbn [List.filter]. now rewrite H. Qed.

Lemma text_of_spaces (k : nat) : text_of (replicate k " "%byte) = [].
Proof. induction k as [|k IH]; [reflexivity|]. cbn [replicate]. exact IH. Qed.

Lemma oneline_step_text (st : list byte * bool) (c : byte) :
  text_of (oneline_step st c).1 = text_of st.1 ++ text_of [c].
Proof.
  destruct st as [result anl]. cbn [fst]. unfold oneline_step.
  destruct (negb (char_eq c x0a) && negb (char_eq c x0d)) eqn:Ebr.
  - assert (Hlb : is_line_break c = false).
    { unfold is_line_break. apply andb_true_iff in Ebr as [E1 E2].
      apply negb_true_iff in E1, E2. now rewrite E1, E2. }
    destruct anl; [destruct (char_eq c " ") eqn:Esp|]; cbn [fst].
    + rewrite text_of_blank by (unfold is_blank; now rewrite Esp).
      now rewrite app_nil_r.
    + apply text_of_app.
    + apply text_of_app.
  - assert (Hb : is_blank c = true).
    { unfold is_blank, is_line_break. apply andb_false_iff in Ebr as [E|E];
        apply negb_false_iff in E; rewrite E; now rewrite ?orb_true_r. }
    rewrite (text_of_blank c Hb), app_nil_r.
    destruct anl; cbn [negb fst]; [reflexivity|].
    rewrite text_of_app. rewrite (text_of_blank " "%byte) by reflexivity.
    now rewrite app_nil_r.
Qed.

Lemma oneline_fold_text (str : list byte) :
  forall st, text_of (fold_left oneline_step str st).1 = text_of st.1 ++ text_of str.
Proof.
  induction str as [|c str IH]; intros st; cbn [fold_left].
  - now rewrite app_nil_r.
  - rewrite IH, oneline_step_text, <- app_assoc. f_equal.
    symmetry. apply (text_of_app [c] str).
Qed.

(** X22: [oneline] only removes and inserts blanks: the bytes that are
    neither a space nor a line break are the same, in the same order, in the
    input and in the result. *)
Theorem oneline_keeps_text (str : list byte) :
  exists r, oneline str = Ok r /\ text_of r = text_of str.
Proof.
  unfold oneline. pose proof (oneline_fold_text str ([], true)) as Ht.
  destruct (fold_left oneline_step str ([], true)) as [result anl].
  change (text_of result = text_of str) in Ht.
  destruct (oneline_trim_spec (length result) result) as (r & k & Hr & Hres & _); [lia|].
  exists r. split; [assumption|].
  rewrite <- Ht, Hres, text_of_app, text_of_spaces. now rewrite app_nil_r.
Qed.

Lemma get_elem_of (s : list byte) (i : nat) (c : byte) : get s i = Ok c -> c ∈ s.
Proof.
  unfold get. destruct (s !! i) as [x|] eqn:E; [|discriminate].
  intros [= <-]. now apply list_elem_of_lookup_2 in E.
Qed.

Lemma x_encode_loop_ext (f g : byte -> bool) (s : list byte) (n : nat) :
  (forall c, c ∈ s -> f c = g c) ->
  forall fuel i res, x_encode_loop fuel f s n i res = x_encode_loop fuel g s n i res.
Proof.
  intros Hfg fuel. induction fuel as [|fuel IH]; intros i res; cbn [x_encode_loop];
    [reflexivity|].
  destruct (negb (i <? n)); [reflexivity|].
  destruct (get s i) as [c|err] eqn:E; cbn [bind]; [|reflexivity].
  rewrite (Hfg c (get_elem_of s i c E)).
  destruct (g c); [|apply IH].
  destruct (x_encode_count 250 s n i 1); cbn [bind]; [apply IH|reflexivity].
Qed.

Lemma x_decode_loop_ext (f g : byte -> bool) (s : list byte) (n : nat) :
  (forall c, c ∈ s -> f c = g c) ->
  forall fuel i res, x_decode_loop fuel f s n i res = x_decode_loop fuel g s n i res.
Proof.
  intros Hfg fuel. induction fuel as [|fuel IH]; intros i res; cbn [x_decode_loop];
    [reflexivity|].
  destruct (negb (i <? n)); [reflexivity|].
  destruct (get s i) as [c|err] eqn:E; cbn [bind]; [|reflexivity].
  rewrite (Hfg c (get_elem_of s i c E)).
  destruct ((i + 1 <? n) && g c); [|apply IH].
  destruct (get s (i + 1)); cbn [bind]; [apply IH|reflexivity].
Qed.

Lemma zero_or_one_without_ff (c : byte) : c <> xff -> is_zero_or_one c = is_zero c.
Proof. destruct c; intros H; first [reflexivity | now contradiction H]. Qed.

Lemma encoded_form_no_ff (f : byte -> bool) (e : list byte) :
  encoded_form f e -> xff ∉ x_decode_list f e -> xff ∉ e.
Proof.
  induction 1 as [|c rest Hc _ IH|c k rest Hc Hk _ IH]; intros Hd.
  - exact Hd.
  - rewrite x_decode_list_literal in Hd by assumption.
    rewrite not_elem_of_cons in *. destruct Hd. split; auto.
  - rewrite x_decode_list_run in Hd by assumption.
    rewrite not_elem_of_app in Hd. destruct Hd as [Hrep Hrest].
    rewrite !not_elem_of_cons. split; [|split; [|now apply IH]].
    + intros <-. apply Hrep. destruct (u8 k) as [|m] eqn:E; [lia|]. cbn [replicate]. left.
    + intros <-. cbn in Hk. lia.
Qed.

(** X23: on data without a byte 0xFF the two run codecs agree: they produce
    the same encoding, and each decoder reads what the other's encoder
    wrote. *)
Theorem run_codecs_agree (b : list byte) :
  xff ∉ b ->
  exists e,
    zero_encode b = Ok e /\ zero_one_encode b = Ok e
    /\ zero_decode e = Ok b /\ zero_one_decode e = Ok b.
Proof.
  intros Hb. destruct (x_encode_spec is_zero b) as (e & He & Hdec & Hform).
  assert (Hagree : forall s : list byte,
            xff ∉ s -> forall c, c ∈ s -> is_zero_or_one c = is_zero c).
  { intros s Hs c Hc. apply zero_or_one_without_ff. intros ->. contradiction. }
  exists e. unfold zero_encode, zero_one_encode, zero_decode, zero_one_decode.
  split; [assumption|]. split.
  - unfold x_encode. rewrite (x_encode_loop_ext is_zero_or_one is_zero b _ (Hagree b Hb)).
    exact He.
  - assert (Hd : x_decode e is_zero = Ok b) by (now rewrite x_decode_spec, Hdec).
    split; [assumption|].
    unfold x_decode. rewrite (x_decode_loop_ext is_zero_or_one is_zero e _).
    + exact Hd.
    + apply Hagree. apply (encoded_form_no_ff is_zero e Hform). now rewrite Hdec.
Qed.

(** ** The further properties at concrete inputs *)

Lemma implode_length_witness :
  Forall (fun x => ","%byte ∉ x) [bytes_of "a"; bytes_of ""; bytes_of "bc"]
  /\ exists r,
       implode [bytes_of "a"; bytes_of ""; bytes_of "bc"] ","%byte = Ok r
       /\ length r = total_length [bytes_of "a"; bytes_of ""; bytes_of "bc"] + (3 - 1)
       /\ count_if (char_eq ","%byte) r = 3 - 1.
Proof.
  assert (H : Forall (fun x => ","%byte ∉ x) [bytes_of "a"; bytes_of ""; bytes_of "bc"]).
  { repeat constructor; intros Hin;
      repeat (apply elem_of_cons in Hin as [Hin|Hin]; [discriminate Hin|]);
      inversion Hin. }
  split; [exact H|].
  destruct (implode_length [bytes_of "a"; bytes_of ""; bytes_of "bc"] ","%byte)
    as (r & Hr & Hl & Hc).
  exists r. split; [exact Hr|]. split; [exact Hl|exact (Hc H)].
Defined.

Lemma oneline_idempotent_witness :
  Forall (fun b => is_line_break b = false) (bytes_of "a  b")
  /\ head (bytes_of "a  b") <> Some " "%byte
  /\ last (bytes_of "a  b") <> Some " "%byte
  /\ oneline (bytes_of "a  b") = Ok (bytes_of "a  b").
Proof.
  assert (H1 : Forall (fun b => is_line_break b = false) (bytes_of "a  b"))
    by (repeat constructor).
  assert (H2 : head (bytes_of "a  b") <> Some " "%byte) by discriminate.
  assert (H3 : last (bytes_of "a  b") <> Some " "%byte) by discriminate.
  split; [exact H1|]. split; [exact H2|]. split; [exact H3|].
  exact (proj1 (oneline_idempotent (bytes_of "a  b")) H1 H2 H3).
Defined.

Lemma hex_encode_decode_witness :
  hex_decode (bytes_of "4A6b") = Ok [x4a; x6b]
  /\ hex_encode [x4a; x6b] = Ok (map to_lower (bytes_of "4A6b")).
Proof.
  assert (H : hex_decode (bytes_of "4A6b") = Ok [x4a; x6b]) by reflexivity.
  split; [exact H|]. exact (hex_encode_decode (bytes_of "4A6b") [x4a; x6b] H).
Defined.

Lemma url_encode_decode_witness :
  percent_encoded (bytes_of "a%20b")
  /\ exists b, url_decode (bytes_of "a%20b") false = Ok b /\ url_encode b = Ok (bytes_of "a%20b").
Proof.
  assert (H : percent_encoded (bytes_of "a%20b")).
  { apply percent_plain; [reflexivity|].
    apply percent_escape; [reflexivity|reflexivity|reflexivity|].
    apply percent_plain; [reflexivity|]. apply percent_nil. }
  split; [exact H|]. exact (url_encode_decode (bytes_of "a%20b") H).
Defined.

Lemma url_decode_no_percent_witness :
  Forall (fun c => char_eq c "%" = false) (bytes_of "a+b")
  /\ url_decode (bytes_of "a+b") false = Ok (bytes_of "a+b")
  /\ url_decode (bytes_of "a+b") true
     = Ok (map (fun c => if true && char_eq c "+" then " "%byte else c) (bytes_of "a+b")).
Proof.
  assert (H : Forall (fun c => char_eq c "%" = false) (bytes_of "a+b"))
    by (repeat constructor).
  split; [exact H|]. exact (url_decode_no_percent (bytes_of "a+b") true H).
Defined.

Lemma url_decode_to_frame_witness :
  3 <= 3 /\ 0 + 3 <= length (bytes_of "%41xyz") /\ 3 + 3 <= length (bytes_of "%41xyz")
  /\ exists k m',
       url_decode_to (mkSlice 0 3) (mkSlice 3 3) false (bytes_of "%41xyz") = Ok (k, m')
       /\ k <= 3
       /\ length m' = length (bytes_of "%41xyz")
       /\ forall a, a < 3 \/ 3 + k <= a -> m' !! a = bytes_of "%41xyz" !! a.
Proof.
  assert (H1 : 3 <= 3) by lia.
  assert (H2 : 0 + 3 <= length (bytes_of "%41xyz")) by (vm_compute; lia).
  assert (H3 : 3 + 3 <= length (bytes_of "%41xyz")) by (vm_compute; lia).
  split; [exact H1|]. split; [exact H2|]. split; [exact H3|].
  exact (url_decode_to_frame (mkSlice 0 3) (mkSlice 3 3) false (bytes_of "%41xyz") H1 H2 H3).
Defined.

Lemma url_decode_inplace_frame_witness :
  1 + 6 <= length (bytes_of "X%41+%4Z")
  /\ exists str' m',
       url_decode_inplace (mkSlice 1 6) true (bytes_of "X%41+%4Z") = Ok (str', m')
       /\ ptr str' = 1
       /\ size str' <= 6
       /\ length m' = length (bytes_of "X%41+%4Z")
       /\ forall a, a < ptr str' \/ ptr str' + size str' <= a ->
                    m' !! a = bytes_of "X%41+%4Z" !! a.
Proof.
  assert (H : 1 + 6 <= length (bytes_of "X%41+%4Z")) by (vm_compute; lia).
  split; [exact H|].
  exact (url_decode_inplace_frame (mkSlice 1 6) true (bytes_of "X%41+%4Z") H).
Defined.

Lemma run_codecs_plain_witness :
  Forall (fun c => is_zero_or_one c = false) [x01; x7f; xfe]
  /\ zero_one_encode [x01; x7f; xfe] = Ok [x01; x7f; xfe]
  /\ zero_one_decode [x01; x7f; xfe] = Ok [x01; x7f; xfe].
Proof.
  assert (H : Forall (fun c => is_zero_or_one c = false) [x01; x7f; xfe])
    by (repeat constructor).
  split; [exact H|]. exact (proj2 (run_codecs_plain [x01; x7f; xfe]) H).
Defined.

Lemma x_encode_greedy_witness :
  is_zero_or_one xff = true /\ (1 <= 3 <= 250) /\ head [x00; x07] <> Some xff
  /\ exists e,
       x_encode [x00; x07] is_zero_or_one = Ok e
       /\ x_encode (replicate 3 xff ++ [x00; x07]) is_zero_or_one
          = Ok (xff :: byte_of_nat 3 :: e).
Proof.
  assert (H1 : is_zero_or_one xff = true) by reflexivity.
  assert (H2 : 1 <= 3 <= 250) by lia.
  assert (H3 : head [x00; x07] <> Some xff) by discriminate.
  split; [exact H1|]. split; [exact H2|]. split; [exact H3|].
  exact (proj2 (x_encode_greedy is_zero_or_one xff 3 [x00; x07]) H1 H2 (or_intror H3)).
Defined.

Lemma hex_decode_append_witness :
  hex_decode (bytes_of "4a") = Ok [x4a] /\ hex_decode (bytes_of "6B") = Ok [x6b]
  /\ hex_decode (bytes_of "4a" ++ bytes_of "6B") = Ok ([x4a] ++ [x6b]).
Proof.
  assert (H1 : hex_decode (bytes_of "4a") = Ok [x4a]) by reflexivity.
  assert (H2 : hex_decode (bytes_of "6B") = Ok [x6b]) by reflexivity.
  split; [exact H1|]. split; [exact H2|].
  exact (hex_decode_append (bytes_of "4a") (bytes_of "6B") [x4a] [x6b] H1 H2).
Defined.

Lemma run_codecs_agree_witness :
  (xff ∉ [x00; x00; x05])
  /\ exists e,
       zero_encode [x00; x00; x05] = Ok e /\ zero_one_encode [x00; x00; x05] = Ok e
       /\ zero_decode e = Ok [x00; x00; x05] /\ zero_one_decode e = Ok [x00; x00; x05].
Proof.
  assert (H : xff ∉ [x00; x00; x05]).
  { intros Hin. repeat (apply elem_of_cons in Hin as [Hin|Hin]; [discriminate Hin|]).
    inversion Hin. }
  split; [exact H|]. exact (run_codecs_agree [x00; x00; x05] H).
Defined.
